(** * xssh: SSH multi-host command executor (Linux/xssh.py)

    A shallow embedding of the host resolution, the remote command
    construction and the per-host / fleet execution of [xssh.py], with the
    properties of its specification stated and proved over it.

    Conventions of the embedding.
    - Python [str] values are [string]s (byte strings).  The string
      primitives of module [Py] follow CPython on ASCII text: [lower] maps
      only [A-Z], [isspace] knows the ASCII white space of [str.isspace].
    - The module-level globals of the script ([MASS_MODE], [COMMAND],
      [HOSTS], ...) are the fields of the record [globals], threaded
      explicitly through the functions that read or assign them.
    - [sys.exit] and the text printed on standard output are results of
      the functions ([outcome], [event]); calls of [log] are not modelled.
    - The SSH transport ([paramiko]) is an oracle [ssh_connect].
    - The file system is an oracle too.  [open_target] says what [open]
      reaches for a file named in the temporary directory of a fleet run:
      it raises, or gives a file outside the directory, or an entry of
      the directory; the entries are a [gmap] from name to content.
      [open_log] says whether the log file of [-l] can be opened.
      Writing to ["/dev/stdout"] succeeds. *)

From Stdlib Require Import ZArith Ascii.
From stdpp Require Import gmap strings list sorting.

Local Open Scope Z_scope.

(** ** Python string primitives *)

Module Py.

(** [str.isspace] on one ASCII character: TAB, LF, VT, FF, CR,
    FS, GS, RS, US and the space. *)
Definition isspace (c : ascii) : bool :=
  let n := N_of_ascii c in
  ((9 <=? n) && (n <=? 13) || (28 <=? n) && (n <=? 32))%N.

Definition lower_char (c : ascii) : ascii :=
  let n := N_of_ascii c in
  if ((65 <=? n) && (n <=? 90))%N then ascii_of_N (n + 32) else c.

(** [s.lower()] *)
Fixpoint lower (s : string) : string :=
  match s with
  | EmptyString => EmptyString
  | String c t => String (lower_char c) (lower t)
  end.

(** [s.startswith(p)] *)
Definition startswith (p s : string) : bool := String.prefix p s.

(** [sub in s] *)
Fixpoint contains (sub s : string) : bool :=
  String.prefix sub s ||
  match s with
  | EmptyString => false
  | String _ t => contains sub t
  end.

(** [c in s] for a single character [c] *)
Fixpoint contains_char (c : ascii) (s : string) : bool :=
  match s with
  | EmptyString => false
  | String d t => bool_decide (c = d) || contains_char c t
  end.

(** truth value of a string: [bool(s)] *)
Definition truthy (s : string) : bool :=
  match s with EmptyString => false | _ => true end.

Fixpoint lstrip (s : string) : string :=
  match s with
  | EmptyString => EmptyString
  | String c t => if isspace c then lstrip t else s
  end.

Fixpoint rstrip (s : string) : string :=
  match s with
  | EmptyString => EmptyString
  | String c t =>
      match rstrip t with
      | EmptyString => if isspace c then EmptyString else String c EmptyString
      | t' => String c t'
      end
  end.

(** [s.strip()] *)
Definition strip (s : string) : string := rstrip (lstrip s).

Definition flush (cur : string) : list string :=
  match cur with EmptyString => [] | _ => [cur] end.

Fixpoint split_go (cur s : string) : list string :=
  match s with
  | EmptyString => flush cur
  | String c t =>
      if isspace c then flush cur ++ split_go EmptyString t
      else split_go (cur +:+ String c EmptyString) t
  end.

(** [s.split()]: the maximal runs of non-blank characters *)
Definition split (s : string) : list string := split_go EmptyString s.

(** [s.split(sep)] for a one-character separator *)
Fixpoint split_on (sep : ascii) (s : string) : list string :=
  match s with
  | EmptyString => [EmptyString]
  | String c t =>
      if bool_decide (c = sep) then EmptyString :: split_on sep t
      else match split_on sep t with
           | h :: r => String c h :: r
           | [] => [String c EmptyString]
           end
  end.

(** [s.split(sep, 1)] for a one-character separator *)
Fixpoint split1 (sep : ascii) (s : string) : list string :=
  match s with
  | EmptyString => [EmptyString]
  | String c t =>
      if bool_decide (c = sep) then [EmptyString; t]
      else match split1 sep t with
           | h :: r => String c h :: r
           | [] => [String c EmptyString]
           end
  end.

(** [sep.join(l)] *)
Fixpoint join (sep : string) (l : list string) : string :=
  match l with
  | [] => EmptyString
  | [x] => x
  | x :: r => x +:+ sep +:+ join sep r
  end.

(** [s.replace(old, new)] for a non-empty [old]: the occurrences of
    [old] are replaced from left to right, without overlap.  [skip]
    counts the characters of an occurrence still to be dropped. *)
Fixpoint replace_go (old new : string) (skip : nat) (s : string) : string :=
  match s with
  | EmptyString => EmptyString
  | String c t =>
      match skip with
      | S k => replace_go old new k t
      | O =>
          if String.prefix old s
          then new +:+ replace_go old new (String.length old - 1) t
          else String c (replace_go old new 0 t)
      end
  end.

Definition replace (old new s : string) : string := replace_go old new 0 s.

(** [a < b] on strings *)
Definition str_lt (a b : string) : bool := String.ltb a b.

(** [a < b] on lists of strings: the first position where the lists
    differ decides; a proper prefix is smaller. *)
Fixpoint list_lt (a b : list string) : bool :=
  match a, b with
  | _, [] => false
  | [], _ :: _ => true
  | x :: a', y :: b' =>
      if bool_decide (x = y) then list_lt a' b' else str_lt x y
  end.

End Py.

(** ** Process substitution markers: [re.findall(r"<(\([^()]*\))", cmd)] *)

(** The longest prefix of [s] without parentheses, when a [")"] follows
    it: the text matched by [[^()]*\)], without the closing parenthesis. *)
Fixpoint paren_body (s : string) : option string :=
  match s with
  | EmptyString => None
  | String c t =>
      if bool_decide (c = ")"%char) then Some EmptyString
      else if bool_decide (c = "("%char) then None
      else String c <$> paren_body t
  end.

(** A match of the pattern at the start of [s]: the body between
    ["<("] and [")"]. *)
Definition match_here (s : string) : option string :=
  match s with
  | String c (String d t) =>
      if bool_decide (c = "<"%char) && bool_decide (d = "("%char)
      then paren_body t else None
  | _ => None
  end.

(** The captured groups, from left to right; a group keeps its
    parentheses.  After a match the scan resumes behind it. *)
Fixpoint findall_go (skip : nat) (s : string) : list string :=
  match s with
  | EmptyString => []
  | String c t =>
      match skip with
      | S k => findall_go k t
      | O =>
          match match_here s with
          | Some body =>
              ("(" +:+ body +:+ ")") :: findall_go (String.length body + 2) t
          | None => findall_go 0 t
          end
      end
  end.

Definition findall (cmd : string) : list string := findall_go 0 cmd.

(** ** Global variables of the script *)

Record globals := Globals {
  LOG_FILE : string;
  DEBUG_MODE : bool;
  VERBOSE_MODE : bool;
  MASS_MODE : bool;
  SUDO_MODE : bool;
  USERNAME : string;
  PATTERN : string;
  HOSTS : list string;
  SSH_OPTIONS : list string;
  COMMAND : list string
}.

Definition initial_globals : globals :=
  {| LOG_FILE := ""; DEBUG_MODE := false; VERBOSE_MODE := false;
     MASS_MODE := false; SUDO_MODE := false; USERNAME := ""; PATTERN := "";
     HOSTS := []; SSH_OPTIONS := []; COMMAND := [] |}.

(** ** Remote command wrapping *)

(** [create_subprocess] makes a FIFO, starts the thread that feeds it and
    returns its path.  The path depends on the process id and on the
    identity of the matched string object: it is the oracle [fifo], asked
    with the rank of the match and its text.  [os.mkfifo] is taken to
    succeed. *)
Definition fifo_oracle := nat → string → string.

Definition handle_process_substitution (fifo : fifo_oracle) (cmd : string) : string :=
  let matches := findall cmd in
  (foldl (λ '(i, cmd) m, (S i, Py.replace ("<(" +:+ m +:+ ")") (fifo i m) cmd))
         (O, cmd) matches).2.

Definition metacharacters : string := "&|;><$(){}[]*".

(** [any(char in cmd_str for char in "&|;><$(){}[]*")] *)
Definition has_metacharacter (cmd_str : string) : bool :=
  existsb (λ c, Py.contains_char c cmd_str) (String.list_ascii_of_string metacharacters).

Definition quote (c : string) : string := "'" +:+ c +:+ "'".

Definition wrap_remote_command (fifo : fifo_oracle) (g : globals) : string :=
  match COMMAND g with
  | [] => ""
  | _ =>
      let cmd_str := Py.join " " (COMMAND g) in
      let cmd_str := handle_process_substitution fifo cmd_str in
      if (length (COMMAND g) =? 1)%nat then
        if SUDO_MODE g then "sudo " +:+ cmd_str else cmd_str
      else if has_metacharacter cmd_str || (1 <? length (COMMAND g))%nat then
        let quoted_cmd := Py.join " " (quote <$> COMMAND g) in
        if SUDO_MODE g then "sudo sh -c " +:+ quoted_cmd
        else "sh -c " +:+ quoted_cmd
      else if SUDO_MODE g then "sudo " +:+ cmd_str
      else cmd_str
  end.

(** ** Effects: standard output, connections, [sys.exit] *)

Definition nl : string := String "010"%char EmptyString.

Inductive event :=
  | Stdout (text : string)                      (* text written to standard output *)
  | PrintUsage                                  (* [usage()] *)
  | ReadConfig                                  (* the SSH config file is opened and read *)
  | Connect (host username : string)            (* [ssh.connect] *)
  | ExecCommand (host cmd : string) (get_pty : bool).   (* [ssh.exec_command] *)

(** [print(s)] *)
Definition print (s : string) : event := Stdout (s +:+ nl).

Inductive outcome (A : Type) :=
  | Return (a : A)
  | Exit (code : Z)              (* [sys.exit(code)] *)
  | Raise (exn : string).        (* an exception nobody catches *)
Arguments Return {A} a.
Arguments Exit {A} code.
Arguments Raise {A} exn.

(** A computation: the events it performs, in order, and how it ends. *)
Definition prog (A : Type) : Type := list event * outcome A.

Definition emit (e : list event) : prog unit := (e, Return tt).
Definition sys_exit {A} (code : Z) : prog A := ([], Exit code).

Global Instance prog_ret : MRet prog := λ A a, ([], Return a).
Global Instance prog_bind : MBind prog := λ A B f m,
  match m.2 with
  | Return a => (m.1 ++ (f a).1, (f a).2)
  | Exit c => (m.1, Exit c)
  | Raise e => (m.1, Raise e)
  end.

(** ** Input validation *)

(** The namespace returned by [parse_arguments]; an option that was not
    given is the empty string ([None] and [""] are both false). *)
Record arguments := MkArguments {
  arg_debug : bool;
  arg_verbose : bool;
  arg_x11 : bool;
  arg_port : string;
  arg_local_forward : string;
  arg_dynamic_forward : string;
  arg_log_file : string;
  arg_mass : bool;
  arg_sudo : bool;
  arg_pattern : string;
  arg_command : list string
}.

Definition forbidden_commands : list string := ["shutdown"; "poweroff"; "reboot"].

Definition validate_command (g : globals) : prog unit :=
  let cmd_str := Py.join " " (COMMAND g) in
  foldr (λ cmd rest, if Py.contains cmd cmd_str then sys_exit 1 else rest)
        (mret tt) forbidden_commands.

(** The assignments at the head of [validate_input]. *)
Definition assign_globals (args : arguments) : globals :=
  let ssh_options :=
    (if arg_x11 args then ["-X"] else []) ++
    (if Py.truthy (arg_port args) then ["-p"; arg_port args] else []) ++
    (if Py.truthy (arg_local_forward args) then ["-L"; arg_local_forward args] else []) ++
    (if Py.truthy (arg_dynamic_forward args) then ["-D"; arg_dynamic_forward args] else []) in
  {| LOG_FILE := arg_log_file args; DEBUG_MODE := arg_debug args;
     VERBOSE_MODE := arg_verbose args; MASS_MODE := arg_mass args;
     SUDO_MODE := arg_sudo args; USERNAME := ""; PATTERN := arg_pattern args;
     HOSTS := []; SSH_OPTIONS := ssh_options; COMMAND := arg_command args |}.

Definition validate_input (args : arguments) : prog globals :=
  let g := assign_globals args in
  match MASS_MODE g, COMMAND g with
  | true, [] => sys_exit 1
  | true, _ :: _ => validate_command g;; mret g
  | false, _ => mret g
  end.

(** ** Host registry: the [Host] / [Hostname] blocks of the SSH config *)

Record registry := Registry {
  current_host : string;
  hostnames : gmap string string;
  hosts_set : gset string
}.

Definition empty_registry : registry :=
  {| current_host := ""; hostnames := ∅; hosts_set := ∅ |}.

(** One alias [h] of a [Host] line. *)
Definition declare_alias (r : registry) (h : string) : registry :=
  if negb (Py.contains "*" h) then
    {| current_host := h; hostnames := hostnames r; hosts_set := {[h]} ∪ hosts_set r |}
  else r.

(** One line of the file; [line.split()[1]] exists on every line that
    starts with ["Hostname "] after [strip] (lemma [hostname_line_has_value]),
    so the last branch of the inner [match] is never taken. *)
Definition parse_line (r : registry) (line : string) : registry :=
  let line := Py.strip line in
  if negb (Py.truthy line) || Py.startswith "#" line then r
  else if Py.startswith "Host " line then
    foldl declare_alias r (tail (Py.split line))
  else if Py.startswith "Hostname " line then
    if Py.truthy (current_host r) then
      match Py.split line with
      | _ :: value :: _ =>
          {| current_host := current_host r;
             hostnames := <[current_host r := value]> (hostnames r);
             hosts_set := hosts_set r |}
      | _ => r
      end
    else r
  else r.

Definition parse_config (lines : list string) : registry :=
  foldl parse_line empty_registry lines.

(** ** Host resolution *)

(** The sort key [lambda x: x.split(".")] and the order [sorted] uses:
    [x] may stand before [y] when [key y < key x] is false. *)
Definition key (x : string) : list string := Py.split_on "." x.

Definition key_le (x y : string) : Prop := ¬ Py.list_lt (key y) (key x).

Global Instance key_le_dec : RelDecision key_le.
Proof. intros x y. unfold key_le. apply _. Defined.

(** [sorted(hosts_set, key=lambda x: x.split("."))] *)
Definition sorted_hosts (hosts_set : gset string) : list string :=
  merge_sort key_le (elements hosts_set).

(** The body of the loop over the sorted aliases; the state is the pair
    of [HOSTS] and [printed]. *)
Definition visit (host_pattern : string) (hostnames : gmap string string)
    (acc : list string * gset string) (host : string) : list string * gset string :=
  if Py.contains (Py.lower host_pattern) (Py.lower host) && negb (Py.contains "*" host) then
    let hostname := default host (hostnames !! host) in
    if bool_decide (hostname ∈ acc.2) then acc
    else (acc.1 ++ [hostname], {[hostname]} ∪ acc.2)
  else acc.

Definition matching_hosts (host_pattern : string) (r : registry) : list string :=
  (foldl (visit host_pattern (hostnames r)) ([], ∅) (sorted_hosts (hosts_set r))).1.

(** [USERNAME, host_pattern = host_pattern.split("@", 1)] under the test
    ["@" in host_pattern]; without an ["@"] the user name is empty. *)
Definition split_pattern (pattern : string) : string * string :=
  if Py.contains "@" pattern then
    match Py.split1 "@" pattern with
    | [username; host_pattern] => (username, host_pattern)
    | _ => ("", pattern)
    end
  else ("", pattern).

Definition with_hosts (g : globals) (username : string) (hosts : list string) : globals :=
  {| LOG_FILE := LOG_FILE g; DEBUG_MODE := DEBUG_MODE g;
     VERBOSE_MODE := VERBOSE_MODE g; MASS_MODE := MASS_MODE g;
     SUDO_MODE := SUDO_MODE g; USERNAME := username; PATTERN := PATTERN g;
     HOSTS := hosts; SSH_OPTIONS := SSH_OPTIONS g; COMMAND := COMMAND g |}.

(** [config] is the content of the SSH config file, one string a line,
    or [None] when [os.path.isfile(SSH_CONFIG_FILE)] is false. *)
Definition extract_hosts (config : option (list string)) (g : globals) : prog globals :=
  let '(username, host_pattern) := split_pattern (PATTERN g) in
  hosts ← match config with
          | Some lines =>
              emit [ReadConfig];; mret (matching_hosts host_pattern (parse_config lines))
          | None => mret []
          end;
  if (1 <? length hosts)%nat && negb (MASS_MODE g) then
    emit ([print "Multiple hosts detected:"] ++
          ((λ host, print ("- " +:+ host)) <$> hosts) ++
          [print "Use --mass flag to execute commands on multiple hosts."]);;
    sys_exit 1
  else
    mret (with_hosts g username (match hosts with [] => [host_pattern] | _ => hosts end)).

(** ** Per-host execution *)

(** The SSH transport.  [ssh.connect] either raises or gives a session;
    on a session, [exec_command] followed by reading and decoding both
    streams and waiting for the exit status either raises or gives the
    two texts and the status. *)
Inductive run_result :=
  | RunRaises (e : string)
  | RunOk (stdout stderr : string) (exit_status : Z).

Inductive connect_result :=
  | ConnectRaises (e : string)
  | Connected (exec_command : string → bool → run_result).

(** What [open(os.path.join(tmpdir, name), ...)] reaches.  The name is
    joined to the directory as it is: with a component that is no
    directory of [tmpdir] (a host [rack/web1]), or a name the file system
    refuses, [open] raises; an absolute name or [..] leads to a file
    outside the directory; otherwise the file is an entry of the
    directory, and two names may lead to the same entry ([./a.out] and
    [a.out]). *)
Inductive file_target :=
  | OpenRaises (e : string)
  | Outside
  | Entry (entry : string).

Record environment := Environment {
  ssh_connect : string → string → connect_result;   (* host, user name *)
  fifo : string → fifo_oracle;                      (* FIFO paths made for a host *)
  open_target : string → file_target;               (* files named in the temporary directory *)
  open_log : string → option string                 (* the exception of [logging.FileHandler(path)], if it raises *)
}.

(** Where [execute_ssh] writes: ["/dev/stdout"], or
    [os.path.join(tmpdir, name)]. *)
Inductive output_file :=
  | DevStdout
  | TmpFile (name : string).

(** The effects of one execution, in program order. *)
Inductive action :=
  | Emit (e : event)
  | OpenW (f : output_file) (text : string)    (* [open(f, "w")], [write] *)
  | OpenA (f : output_file) (text : string).   (* [open(f, "a")], [write] *)

(** The temporary directory holds regular files only, the entries made by
    the threads: a map from entry names to contents. *)
Record world := World {
  files : gmap string string;   (* the temporary directory *)
  trace : list event
}.

Definition empty_world : world := {| files := ∅; trace := [] |}.

(** The effect of an action whose [open] succeeds; in [TmpFile name] the
    name is that of the entry reached (see [effective] for the threads of
    a fleet run, whose [open] can raise). *)
Definition perform (w : world) (a : action) : world :=
  match a with
  | Emit e => {| files := files w; trace := trace w ++ [e] |}
  | OpenW DevStdout text | OpenA DevStdout text =>
      {| files := files w; trace := trace w ++ [Stdout text] |}
  | OpenW (TmpFile name) text =>
      {| files := <[name := text]> (files w); trace := trace w |}
  | OpenA (TmpFile name) text =>
      {| files := <[name := default "" (files w !! name) +:+ text]> (files w);
         trace := trace w |}
  end.

Definition connection_failed (host e : string) : string :=
  "Connection failed on " +:+ host +:+ ": " +:+ e +:+ nl.

(** The exit status policy of a command that ran. *)
Definition exit_code_of (output : string) (exit_status : Z) : Z :=
  if bool_decide (exit_status ≠ 0) then exit_status
  else if Py.contains "error" (Py.lower output) || Py.contains "not found" (Py.lower output)
       then 127
  else 0.

(** One execution: the exit code and the effects, in program order, of
    a call whose [open]s succeed. *)
Definition execute_ssh (env : environment) (g : globals)
    (host : string) (output_file : output_file) (verbose_prefix : string)
    : Z * list action :=
  let header :=
    if VERBOSE_MODE g && Py.truthy verbose_prefix
    then [OpenW output_file (verbose_prefix +:+ nl)] else [] in
  let connect := Emit (Connect host (USERNAME g)) in
  match ssh_connect env host (USERNAME g) with
  | ConnectRaises e =>
      (1, header ++ [connect; OpenA output_file (connection_failed host e)])
  | Connected exec_command =>
      let remote_cmd := wrap_remote_command (fifo env host) g in
      if Py.truthy remote_cmd then
        let exec := Emit (ExecCommand host remote_cmd (SUDO_MODE g)) in
        match exec_command remote_cmd (SUDO_MODE g) with
        | RunRaises e =>
            (1, header ++ [connect; exec; OpenA output_file (connection_failed host e)])
        | RunOk stdout stderr exit_status =>
            let output := stdout +:+ stderr in
            (exit_code_of output exit_status,
             header ++ [connect; exec; OpenA output_file output])
        end
      else (1, header ++ [connect])
  end.

(** Single-host mode: the hosts one after the other, on standard output. *)
Definition execute_ssh_command (env : environment) (g : globals) : prog unit :=
  emit (trace (foldl (λ w host,
          let w := if VERBOSE_MODE g
                   then perform w (Emit (print ("Executing command on " +:+ host +:+ ":")))
                   else w in
          foldl perform w (execute_ssh env g host DevStdout "").2)
        empty_world (HOSTS g))).

(** ** Fleet execution *)

(** The thread started for [host] is handed the path
    [os.path.join(tmpdir, f"{host}.out")]. *)
Definition out_name (host : string) : string := host +:+ ".out".

(** The actions of an execution that come before its first [open]. *)
Fixpoint before_open (acts : list action) : list action :=
  match acts with
  | Emit e :: rest => Emit e :: before_open rest
  | _ => []
  end.

Definition is_emit (a : action) : bool :=
  match a with Emit _ => true | _ => false end.

(** The actions of an execution that are no write to its file. *)
Fixpoint without_writes (acts : list action) : list action :=
  match acts with
  | [] => []
  | Emit e :: rest => Emit e :: without_writes rest
  | _ :: rest => without_writes rest
  end.

Definition on_entry (entry : string) (a : action) : action :=
  match a with
  | OpenW (TmpFile _) text => OpenW (TmpFile entry) text
  | OpenA (TmpFile _) text => OpenA (TmpFile entry) text
  | _ => a
  end.

(** What a thread performs of the actions of [execute_ssh], by what
    [open] reaches on its path.
    - [open] raises: the thread dies at its first [open].  The one of the
      header comes before the [try], so that nothing is caught and the
      host is never connected to; one inside the [try] is caught by the
      handler, whose own [open] raises again, uncaught.
    - The file is outside the directory: the thread runs to its end and
      leaves nothing in the directory.
    - The file is an entry of the directory: every write goes there. *)
Definition effective (target : file_target) (acts : list action) : list action :=
  match target with
  | OpenRaises _ => before_open acts
  | Outside => without_writes acts
  | Entry entry => on_entry entry <$> acts
  end.

Definition thread_of (env : environment) (g : globals) (host : string) : list action :=
  effective (open_target env (out_name host))
    (execute_ssh env g host (TmpFile (out_name host))
       (if VERBOSE_MODE g then "--- " +:+ host +:+ " ---" else "")).2.

(** What the call of [execute_ssh] in the thread of [host] returns: the
    exit code, unless an [open] raises and the thread dies. *)
Definition thread_result (env : environment) (g : globals) (host : string)
    : option Z :=
  let '(exit_code, acts) :=
    execute_ssh env g host (TmpFile (out_name host))
      (if VERBOSE_MODE g then "--- " +:+ host +:+ " ---" else "") in
  match open_target env (out_name host) with
  | OpenRaises _ => if forallb is_emit acts then Some exit_code else None
  | _ => Some exit_code
  end.

(** The threads run interleaved: [sched] names, step by step, the thread
    that performs its next action; a step of a thread that has finished
    (or does not exist) is void. *)
Fixpoint run_threads (sched : list nat) (w : world) (ts : list (list action))
    : world * list (list action) :=
  match sched with
  | [] => (w, ts)
  | i :: sched' =>
      match ts !! i with
      | Some (a :: rest) => run_threads sched' (perform w a) (<[i := rest]> ts)
      | _ => run_threads sched' w ts
      end
  end.

(** [for thread in threads: thread.join()]: the main thread goes on only
    when every thread has performed all its actions. *)
Definition join_all (w : world) (ts : list (list action)) : world :=
  foldl (λ w t, foldl perform w t) w ts.

(** [os.listdir] gives the names of a directory in arbitrary order. *)
Definition listdir_oracle := gset string → list string.

Definition listdir_contract (listdir : listdir_oracle) : Prop :=
  ∀ names, listdir names ≡ₚ elements names.

(** The temporary directory once every thread is joined. *)
Definition fleet_files (env : environment) (sched : list nat) (g : globals)
    : world :=
  let threads := thread_of env g <$> HOSTS g in
  let '(w, ts) := run_threads sched empty_world threads in
  join_all w ts.

(** [open(path, "r")] reads in text mode with universal newlines: a
    carriage return, with the line feed that follows it if any, is read
    as one line feed. *)
Fixpoint universal_newlines (s : string) : string :=
  match s with
  | EmptyString => EmptyString
  | String c t =>
      if bool_decide (c = "013"%char) then
        String "010"%char
          match t with
          | String d t' =>
              if bool_decide (d = "010"%char) then universal_newlines t'
              else universal_newlines t
          | EmptyString => EmptyString
          end
      else String c (universal_newlines t)
  end.

(** The texts printed from the files, in the order of the listing. *)
Definition fleet_report (env : environment) (sched : list nat)
    (listdir : listdir_oracle) (g : globals) : list string :=
  let w := fleet_files env sched g in
  (λ file, universal_newlines (default "" (files w !! file)))
    <$> listdir (dom (files w)).

(** [os.rmdir(tmpdir)] comes last; the files are never removed, and a
    directory that is not empty makes it raise [OSError]. *)
Definition parallel_execute (env : environment) (sched : list nat)
    (listdir : listdir_oracle) (g : globals) : prog unit :=
  if MASS_MODE g then
    let w := fleet_files env sched g in
    emit (trace w);;
    emit (print <$> fleet_report env sched listdir g);;
    if bool_decide (files w = ∅) then mret tt
    else ([], Raise "OSError")
  else mret tt.

(** ** Main program *)

Definition help_patterns : list string := ["-h"; "--help"].

(** [setup_logging]: with a log file, [logging.FileHandler(LOG_FILE)]
    opens it at once; nothing catches what it raises. *)
Definition setup_logging (env : environment) (g : globals) : prog unit :=
  if Py.truthy (LOG_FILE g) then
    match open_log env (LOG_FILE g) with
    | Some e => ([], Raise e)
    | None => mret tt
    end
  else mret tt.

(** The run once [parse_arguments] has returned [args]. *)
Definition main (args : arguments) (config : option (list string))
    (env : environment) (sched : list nat) (listdir : listdir_oracle)
    : prog unit :=
  if bool_decide (arg_pattern args ∈ help_patterns) then
    emit [PrintUsage];; sys_exit 0
  else
    g ← validate_input args;
    setup_logging env g;;
    g ← extract_hosts config g;
    if MASS_MODE g then parallel_execute env sched listdir g
    else execute_ssh_command env g.

(** ** The resolution in the words of the specification *)

(** The order of the specification on segment sequences: the first
    segment that differs decides, by the order of strings; a sequence is
    smaller than each of its proper extensions. *)
Inductive seg_lt : list string → list string → Prop :=
  | seg_lt_prefix y ys : seg_lt [] (y :: ys)
  | seg_lt_here x y xs ys : Py.str_lt x y = true → seg_lt (x :: xs) (y :: ys)
  | seg_lt_later x xs ys : seg_lt xs ys → seg_lt (x :: xs) (x :: ys).

Definition segments_le (x y : string) : Prop :=
  x = y ∨ seg_lt (Py.split_on "." x) (Py.split_on "." y).

Definition is_wildcard (alias : string) : Prop := Py.contains "*" alias = true.

Global Instance is_wildcard_dec (alias : string) : Decision (is_wildcard alias).
Proof. unfold is_wildcard. apply _. Defined.

(** The lowercase alias contains the lowercase pattern. *)
Definition matches (host_pattern alias : string) : Prop :=
  Py.contains (Py.lower host_pattern) (Py.lower alias) = true.

Global Instance matches_dec (host_pattern alias : string) :
  Decision (matches host_pattern alias).
Proof. unfold matches. apply _. Defined.

(** The address of an alias: its [Hostname], or the alias itself. *)
Definition address (hostnames : gmap string string) (alias : string) : string :=
  default alias (hostnames !! alias).

(** Every element is kept where it occurs first. *)
Fixpoint keep_first (l : list string) : list string :=
  match l with
  | [] => []
  | x :: l' => x :: filter (λ y, y ≠ x) (keep_first l')
  end.

(** [enumeration r l]: [l] lists the aliases of [r] without wildcard,
    in the order of their segment sequences. *)
Definition enumeration (r : registry) (l : list string) : Prop :=
  l ≡ₚ filter (λ a, ¬ is_wildcard a) (elements (hosts_set r)) ∧
  Sorted segments_le l.

Definition resolve_spec (enumerated : list string) (host_pattern : string)
    (r : registry) : list string :=
  keep_first (address (hostnames r) <$> filter (matches host_pattern) enumerated).

(** The enumeration the loop walks through. *)
Definition enumerated (r : registry) : list string :=
  merge_sort key_le (filter (λ a, ¬ is_wildcard a) (elements (hosts_set r))).

(** The candidates of a resolution: the addresses found in the registry
    for the host pattern. *)
Definition candidates (config : option (list string)) (pattern : string) : list string :=
  match config with
  | Some lines => matching_hosts (split_pattern pattern).2 (parse_config lines)
  | None => []
  end.

Definition config_events (config : option (list string)) : list event :=
  match config with Some _ => [ReadConfig] | None => [] end.

(** What is printed when several hosts are found without [--mass]. *)
Definition ambiguity_report (hosts : list string) : list event :=
  [print "Multiple hosts detected:"] ++
  ((λ host, print ("- " +:+ host)) <$> hosts) ++
  [print "Use --mass flag to execute commands on multiple hosts."].

(** The events of a run that reach a remote host. *)
Definition is_remote (e : event) : Prop :=
  match e with Connect _ _ | ExecCommand _ _ _ => True | _ => False end.

(** The registry of the example: three aliases, each with itself as
    [Hostname]. *)
Definition example_config : list string :=
  [ "Host web2.example.com"; "    Hostname web2.example.com";
    "Host db1.example.com";  "    Hostname db1.example.com";
    "Host web1.example.com"; "    Hostname web1.example.com" ].

(** Concrete inputs for the examples. *)
Definition args_of (mass : bool) (pattern : string) (command : list string)
    : arguments :=
  {| arg_debug := false; arg_verbose := false; arg_x11 := false; arg_port := "";
     arg_local_forward := ""; arg_dynamic_forward := ""; arg_log_file := "";
     arg_mass := mass; arg_sudo := false; arg_pattern := pattern;
     arg_command := command |}.

(** The hosts a resolution that returns gives for a pattern. *)
Definition resolved_hosts (config : option (list string)) (pattern : string)
    : list string :=
  match candidates config pattern with
  | [] => [(split_pattern pattern).2]
  | _ => candidates config pattern
  end.

(** The log file is absent or can be opened. *)
Definition log_ready (env : environment) (g : globals) : Prop :=
  Py.truthy (LOG_FILE g) = false ∨ open_log env (LOG_FILE g) = None.

(** A file system for the examples: what [open] reaches in a fresh
    directory when names are of ordinary length and the user may write
    anywhere.  The components [.] and the empty one stay in the
    directory, [..] and an absolute name leave it, any other directory
    component is missing. *)
Fixpoint walk (components : list string) : file_target :=
  match components with
  | [] => OpenRaises "FileNotFoundError"
  | [name] => Entry name
  | c :: rest =>
      if bool_decide (c = ".") || bool_decide (c = "") then walk rest
      else if bool_decide (c = "..") then Outside
      else OpenRaises "FileNotFoundError"
  end.

Definition posix_target (name : string) : file_target :=
  if Py.contains_char "000"%char name then OpenRaises "ValueError"
  else if Py.startswith "/" name then Outside
  else walk (Py.split_on "/"%char name).

(** An environment where every host refuses the connection. *)
Definition refusing_env : environment :=
  {| ssh_connect := λ _ _, ConnectRaises "Connection refused";
     fifo := λ _ _ _, "/tmp/xssh_fifo";
     open_target := posix_target;
     open_log := λ _, None |}.

(** [s] contains [word] up to the case of its letters: some substring
    of [s] has [word] as its lowercase form. *)
Definition contains_ci (word s : string) : Prop :=
  ∃ pre mid post, s = pre +:+ mid +:+ post ∧ Py.lower mid = word.

(** The invariant of the parser: no wildcard in the registry. *)
Definition wildcard_free (r : registry) : Prop :=
  ¬ is_wildcard (current_host r) ∧
  (∀ a, a ∈ hosts_set r → ¬ is_wildcard a) ∧
  (∀ a, is_Some (hostnames r !! a) → ¬ is_wildcard a).

(** The privilege escalation prefix of a command. *)
Definition sudo_prefix (g : globals) : string :=
  if SUDO_MODE g then "sudo " else "".

(** ** The files of a fleet run *)

(** What an action does to the file [name] of the temporary directory. *)
Definition file_effect (name : string) (old : option string) (a : action)
    : option string :=
  match a with
  | OpenW (TmpFile n) text => if bool_decide (n = name) then Some text else old
  | OpenA (TmpFile n) text =>
      if bool_decide (n = name) then Some (default "" old +:+ text) else old
  | _ => old
  end.

Definition touches (name : string) (a : action) : Prop :=
  match a with
  | OpenW (TmpFile n) _ | OpenA (TmpFile n) _ => n = name
  | _ => False
  end.

Global Instance touches_dec (name : string) (a : action) : Decision (touches name a).
Proof. destruct a as [|[]|[]]; simpl; apply _. Defined.

(** The content of [name] after the actions [acts]. *)
Definition written (name : string) (acts : list action) (old : option string)
    : option string :=
  foldl (file_effect name) old acts.

(** No two threads write to the same file. *)
Definition disjoint_threads (ts : list (list action)) : Prop :=
  ∀ i j ti tj name,
    i ≠ j → ts !! i = Some ti → ts !! j = Some tj →
    Exists (touches name) ti → Forall (λ a, ¬ touches name a) tj.

(** The entry of the temporary directory that the file of [host] is, if
    it is one. *)
Definition entry_of (env : environment) (host : string) : option string :=
  match open_target env (out_name host) with
  | Entry entry => Some entry
  | _ => None
  end.

(** No two hosts of the list have the same entry as their file. *)
Definition separate_files (env : environment) (hosts : list string) : Prop :=
  ∀ h1 h2 entry,
    h1 ∈ hosts → h2 ∈ hosts →
    entry_of env h1 = Some entry → entry_of env h2 = Some entry → h1 = h2.

(** The output buffer of a host: the file its thread leaves in the
    temporary directory, if any. *)
Definition host_buffer (env : environment) (g : globals) (host : string)
    : option string :=
  entry ← entry_of env host;
  written entry (thread_of env g host) None.

(** The file of [host] cannot be opened. *)
Definition open_raises (env : environment) (host : string) : bool :=
  match open_target env (out_name host) with
  | OpenRaises _ => true
  | _ => false
  end.

(** An action that writes to a file of the temporary directory. *)
Definition in_directory (a : action) : bool :=
  match a with
  | OpenW (TmpFile _) _ | OpenA (TmpFile _) _ => true
  | _ => false
  end.

(** The entry of a host that leaves a buffer. *)
Definition buffer_entry (env : environment) (g : globals) (host : string)
    : option string :=
  match host_buffer env g host with
  | Some _ => entry_of env host
  | None => None
  end.

(** The line written first in verbose mode. *)
Definition header (g : globals) (host : string) : string :=
  if VERBOSE_MODE g then ("--- " +:+ host +:+ " ---") +:+ nl else "".

(** The session of [host] fails with the exception text [e]: the
    connection is refused, or the command cannot be run or read. *)
Definition connection_fails (env : environment) (g : globals) (host e : string) : Prop :=
  ssh_connect env host (USERNAME g) = ConnectRaises e ∨
  ∃ exec_command,
    ssh_connect env host (USERNAME g) = Connected exec_command ∧
    Py.truthy (wrap_remote_command (fifo env host) g) = true ∧
    exec_command (wrap_remote_command (fifo env host) g) (SUDO_MODE g) = RunRaises e.

(** A listing of the directory in the opposite order. *)
Definition reversed_listing : listdir_oracle := λ names, reverse (elements names).

(** Example environments: [web1.example.com] cannot be reached, every
    other host runs the command and prints a line. *)
Definition example_env : environment :=
  {| ssh_connect := λ host _,
       if bool_decide (host = "web1.example.com") then ConnectRaises "timed out"
       else Connected (λ cmd _, RunOk ("done: " +:+ cmd +:+ nl) "" 0);
     fifo := λ _ _ _, "/tmp/xssh_fifo";
     open_target := posix_target;
     open_log := λ _, None |}.

(** Hosts that answer through a pseudo-terminal, each line ending in a
    carriage return and a line feed. *)
Definition crlf_env : environment :=
  {| ssh_connect := λ _ _,
       Connected (λ cmd _, RunOk ("done" +:+ String "013"%char nl) "" 0);
     fifo := λ _ _ _, "/tmp/xssh_fifo";
     open_target := posix_target;
     open_log := λ _, None |}.

(** The log file cannot be opened. *)
Definition no_log_env : environment :=
  {| ssh_connect := λ _ _, ConnectRaises "Connection refused";
     fifo := λ _ _ _, "/tmp/xssh_fifo";
     open_target := posix_target;
     open_log := λ _, Some "FileNotFoundError" |}.


(** Globals after the resolution, for the examples. *)
Definition fleet_globals (hosts command : list string) : globals :=
  with_hosts (assign_globals (args_of true "web" command)) "" hosts.

(** The last character of a string. *)
Fixpoint last_char (s : string) : option ascii :=
  match s with
  | EmptyString => None
  | String c EmptyString => Some c
  | String _ t => last_char t
  end.

(** ** Observations on executions *)

(** The events an action adds to the trace. *)
Definition emitted (a : action) : list event :=
  match a with
  | Emit e => [e]
  | OpenW DevStdout text | OpenA DevStdout text => [Stdout text]
  | OpenW (TmpFile _) _ | OpenA (TmpFile _) _ => []
  end.

(** The connection attempts of a trace: host and user name. *)
Definition connection_of (e : event) : option (string * string) :=
  match e with
  | Connect host username => Some (host, username)
  | _ => None
  end.

Definition connections (t : list event) : list (string * string) :=
  omap connection_of t.

(** The commands sent in a trace: host, command, pseudo-terminal. *)
Definition command_of (e : event) : option (string * string * bool) :=
  match e with
  | ExecCommand host cmd get_pty => Some (host, cmd, get_pty)
  | _ => None
  end.

Definition commands (t : list event) : list (string * string * bool) :=
  omap command_of t.

(** The globals with other SSH options. *)
Definition with_options (g : globals) (options : list string) : globals :=
  {| LOG_FILE := LOG_FILE g; DEBUG_MODE := DEBUG_MODE g;
     VERBOSE_MODE := VERBOSE_MODE g; MASS_MODE := MASS_MODE g;
     SUDO_MODE := SUDO_MODE g; USERNAME := USERNAME g; PATTERN := PATTERN g;
     HOSTS := HOSTS g; SSH_OPTIONS := options; COMMAND := COMMAND g |}.

(** Two argument records that differ at most in [-X], [-p], [-L], [-D]. *)
Definition same_but_options (a b : arguments) : Prop :=
  arg_debug a = arg_debug b ∧ arg_verbose a = arg_verbose b ∧
  arg_log_file a = arg_log_file b ∧ arg_mass a = arg_mass b ∧
  arg_sudo a = arg_sudo b ∧ arg_pattern a = arg_pattern b ∧
  arg_command a = arg_command b.


(** * Properties *)

(** ** Strings and their orders *)

Section string_facts.

Lemma app_nil_l_s (s : string) : "" +:+ s = s.
Proof. reflexivity. Qed.

Lemma app_cons_s (c : ascii) (s t : string) :
  String c s +:+ t = String c (s +:+ t).
Proof. reflexivity. Qed.

Lemma app_empty_r (s : string) : s +:+ "" = s.
Proof. induction s as [|c s IH]; [done | by rewrite app_cons_s, IH]. Qed.

Lemma app_assoc_s (a b c : string) : (a +:+ b) +:+ c = a +:+ b +:+ c.
Proof. induction a as [|x a IH]; [done | by rewrite !app_cons_s, IH]. Qed.

Lemma app_length_s (a b : string) :
  String.length (a +:+ b) = (String.length a + String.length b)%nat.
Proof. induction a as [|x a IH]; [done | rewrite app_cons_s; simpl; by rewrite IH]. Qed.

Lemma app_inv_tail_s (a b c : string) : a +:+ c = b +:+ c → a = b.
Proof.
  revert b. induction a as [|x a IH]; intros [|y b] H; try done.
  - apply (f_equal String.length) in H.
    rewrite app_nil_l_s, app_cons_s in H. simpl in H. rewrite app_length_s in H. lia.
  - apply (f_equal String.length) in H.
    rewrite app_nil_l_s, app_cons_s in H. simpl in H. rewrite app_length_s in H. lia.
  - rewrite !app_cons_s in H. injection H as -> H. f_equal. by apply IH.
Qed.

Lemma compare_refl (s : string) : String.compare s s = Eq.
Proof.
  pose proof (String.compare_antisym s s) as H.
  destruct (String.compare s s); simpl in H; congruence.
Qed.

Lemma str_lt_irrefl (a : string) : Py.str_lt a a = false.
Proof. unfold Py.str_lt, String.ltb. by rewrite compare_refl. Qed.

Lemma str_lt_le (a b : string) :
  Py.str_lt a b = true ↔ String.le a b ∧ a ≠ b.
Proof.
  unfold Py.str_lt, String.ltb, String.le, String.leb.
  destruct (String.compare a b) eqn:E; split; try done.
  - intros [_ []]. by apply String.compare_eq_iff.
  - intros _. split; [done|]. intros ->. by rewrite compare_refl in E.
  - by intros [[] _].
Qed.

Lemma str_lt_trans (a b c : string) :
  Py.str_lt a b = true → Py.str_lt b c = true → Py.str_lt a c = true.
Proof.
  rewrite !str_lt_le. intros [Hab Nab] [Hbc Nbc]. split.
  - by trans b.
  - intros ->. apply Nab. by apply (anti_symm String.le).
Qed.

Lemma str_lt_total (a b : string) :
  a ≠ b → Py.str_lt a b = true ∨ Py.str_lt b a = true.
Proof.
  intros N. rewrite !str_lt_le.
  destruct (total String.le a b); [left | right]; split; congruence.
Qed.

Lemma list_lt_irrefl (a : list string) : Py.list_lt a a = false.
Proof.
  induction a as [|x a IH]; simpl; [done|].
  by rewrite bool_decide_eq_true_2.
Qed.

Lemma list_lt_trans (a b c : list string) :
  Py.list_lt a b = true → Py.list_lt b c = true → Py.list_lt a c = true.
Proof.
  revert b c. induction a as [|x a IH]; intros [|y b] [|z c]; simpl; try done.
  repeat case_bool_decide; subst; try done; eauto.
  - intros H1 H2.
    pose proof (str_lt_trans _ _ _ H1 H2) as F. by rewrite str_lt_irrefl in F.
  - apply str_lt_trans.
Qed.

Lemma list_lt_total (a b : list string) :
  a ≠ b → Py.list_lt a b = true ∨ Py.list_lt b a = true.
Proof.
  revert b. induction a as [|x a IH]; intros [|y b] N; simpl; auto; try done.
  repeat case_bool_decide; subst; try done.
  - apply IH. congruence.
  - by apply str_lt_total.
Qed.

Lemma list_lt_asym (a b : list string) :
  Py.list_lt a b = true → Py.list_lt b a = false.
Proof.
  intros H. destruct (Py.list_lt b a) eqn:E; [|done].
  pose proof (list_lt_trans _ _ _ H E) as F. by rewrite list_lt_irrefl in F.
Qed.

(** [split_on] is undone by [join]: the key of an alias determines it. *)
Lemma split_on_nonempty (sep : ascii) (s : string) : Py.split_on sep s ≠ [].
Proof. destruct s as [|c s]; simpl; [done|]. case_bool_decide; [done|].
  by destruct (Py.split_on sep s). Qed.

Lemma join_cons (sep x : string) (l : list string) :
  l ≠ [] → Py.join sep (x :: l) = x +:+ sep +:+ Py.join sep l.
Proof. by destruct l. Qed.

Lemma join_split_on (sep : ascii) (s : string) :
  Py.join (String sep "") (Py.split_on sep s) = s.
Proof.
  induction s as [|c s IH]; simpl; [done|].
  pose proof (split_on_nonempty sep s) as N.
  case_bool_decide; subst.
  - rewrite join_cons by done. by rewrite IH.
  - destruct (Py.split_on sep s) as [|h r] eqn:E; [done|].
    destruct r as [|h' r]; simpl in *; by rewrite <- IH.
Qed.

Lemma key_inj (x y : string) : key x = key y → x = y.
Proof.
  unfold key. intros H.
  by rewrite <- (join_split_on "." x), <- (join_split_on "." y), H.
Qed.

End string_facts.

Lemma key_le_iff (x y : string) :
  key_le x y ↔ Py.list_lt (key y) (key x) = false.
Proof. unfold key_le. destruct (Py.list_lt (key y) (key x)); simpl; naive_solver. Qed.

Global Instance key_le_total : Total key_le.
Proof.
  intros x y. rewrite !key_le_iff.
  destruct (Py.list_lt (key y) (key x)) eqn:E; [right | by left].
  by apply list_lt_asym.
Qed.

Global Instance key_le_trans : Transitive key_le.
Proof.
  intros x y z. rewrite !key_le_iff. intros Hxy Hyz.
  destruct (Py.list_lt (key z) (key x)) eqn:Hzx; [|done].
  destruct (decide (key y = key x)) as [E|N].
  - rewrite E in Hyz. congruence.
  - destruct (list_lt_total _ _ N) as [H|H]; [congruence|].
    pose proof (list_lt_trans _ _ _ Hzx H). congruence.
Qed.

Global Instance key_le_antisym : AntiSymm (=) key_le.
Proof.
  intros x y. rewrite !key_le_iff. intros Hxy Hyx. apply key_inj.
  destruct (decide (key x = key y)) as [E|N]; [done|].
  destruct (list_lt_total _ _ N) as [H|H]; congruence.
Qed.

(** ** The order of the enumeration *)

Lemma list_lt_seg_lt (a b : list string) : Py.list_lt a b = true ↔ seg_lt a b.
Proof.
  split.
  - revert b. induction a as [|x a IH]; intros [|y b]; simpl; try done.
    + intros _. constructor.
    + case_bool_decide; subst; intros Hlt; [apply seg_lt_later; auto | by apply seg_lt_here].
  - induction 1 as [| x y xs ys Hlt | x xs ys _ IH]; simpl; [done | |].
    + case_bool_decide; subst; [by rewrite str_lt_irrefl in Hlt | done].
    + by rewrite bool_decide_eq_true_2.
Qed.

Lemma key_le_segments_le (x y : string) : key_le x y ↔ segments_le x y.
Proof.
  rewrite key_le_iff. unfold segments_le. fold (key x) (key y). split.
  - intros H. destruct (decide (key x = key y)) as [E|N]; [left; by apply key_inj|].
    right. apply list_lt_seg_lt. destruct (list_lt_total _ _ N); congruence.
  - intros [->|H]; [apply list_lt_irrefl|].
    apply list_lt_asym. by apply list_lt_seg_lt.
Qed.

Lemma Sorted_impl {A} (R1 R2 : relation A) (l : list A) :
  (∀ x y, R1 x y → R2 x y) → Sorted R1 l → Sorted R2 l.
Proof.
  intros HR. induction 1 as [|x l _ IH Hd]; constructor; [done|].
  destruct Hd; constructor; auto.
Qed.

Lemma StronglySorted_filter {A} (R : relation A) (P : A → Prop)
    `{!∀ x, Decision (P x)} (l : list A) :
  StronglySorted R l → StronglySorted R (filter P l).
Proof.
  induction 1 as [|x l _ IH Hx]; [constructor|].
  rewrite filter_cons. case_decide; [|done].
  constructor; [done|].
  apply Forall_forall. intros y [_ Hy]%list_elem_of_filter.
  by eapply Forall_forall in Hx.
Qed.

(** Sorting commutes with filtering: the sorted list of a set is
    determined by the set, whatever the order of its enumeration. *)
Lemma merge_sort_filter (P : string → Prop) `{!∀ x, Decision (P x)} (l : list string) :
  filter P (merge_sort key_le l) = merge_sort key_le (filter P l).
Proof.
  apply (Sorted_unique key_le).
  - apply StronglySorted_Sorted, StronglySorted_filter, StronglySorted_merge_sort; apply _.
  - apply Sorted_merge_sort; apply _.
  - by rewrite !merge_sort_Permutation.
Qed.

Lemma merge_sort_perm_eq (l1 l2 : list string) :
  l1 ≡ₚ l2 → merge_sort key_le l1 = merge_sort key_le l2.
Proof.
  intros H. apply (Sorted_unique key_le); try (apply Sorted_merge_sort; apply _).
  by rewrite !merge_sort_Permutation.
Qed.

(** ** The resolution loop *)

Lemma keep_first_not_in (seen : list string) (x : string) (l : list string) :
  x ∈ seen →
  filter (λ y, y ∉ seen) (filter (λ y, y ≠ x) l) = filter (λ y, y ∉ seen) l.
Proof.
  intros Hx. apply list_filter_filter_l. by intros y Hy ->.
Qed.

Lemma keep_first_snoc (seen : list string) (x : string) (l : list string) :
  filter (λ y, y ∉ seen ++ [x]) l = filter (λ y, y ∉ seen) (filter (λ y, y ≠ x) l).
Proof.
  rewrite list_filter_filter. apply list_filter_iff.
  intros y. rewrite elem_of_app, list_elem_of_singleton. tauto.
Qed.

(** The loop, started with [HOSTS] and [printed] holding the same
    addresses, appends the addresses not yet printed, each once. *)
Lemma visit_loop (hp : string) (hn : gmap string string)
    (l : list string) (hosts : list string) (printed : gset string) :
  (∀ x, x ∈ printed ↔ x ∈ hosts) →
  (foldl (visit hp hn) (hosts, printed) l).1 =
    hosts ++ filter (λ y, y ∉ hosts)
      (keep_first (address hn <$> filter (λ a, matches hp a ∧ ¬ is_wildcard a) l)).
Proof.
  revert hosts printed. induction l as [|a l IH]; intros hosts printed Hp; simpl.
  - by rewrite app_nil_r.
  - unfold visit at 2. simpl. rewrite filter_cons.
    destruct (Py.contains (Py.lower hp) (Py.lower a)) eqn:Hm; simpl.
    2:{ rewrite decide_False; [by apply IH|]. unfold matches. intros [? _]. congruence. }
    destruct (Py.contains "*" a) eqn:Hw; simpl.
    { rewrite decide_False; [by apply IH|]. unfold is_wildcard. intros [_ ?]. congruence. }
    rewrite decide_True by (unfold matches, is_wildcard; split; congruence).
    rewrite fmap_cons. simpl. fold (address hn a).
    rewrite filter_cons. case_bool_decide as Hin.
    + apply Hp in Hin. rewrite decide_False by tauto.
      rewrite (IH _ _ Hp). by rewrite keep_first_not_in.
    + rewrite Hp in Hin. rewrite decide_True by done.
      rewrite (IH (hosts ++ [address hn a]) ({[address hn a]} ∪ printed)).
      * rewrite <- app_assoc. simpl. by rewrite keep_first_snoc.
      * intros x. rewrite elem_of_union, elem_of_singleton, elem_of_app,
          list_elem_of_singleton, Hp. tauto.
Qed.

Lemma filter_all (l : list string) : filter (λ y, y ∉ @nil string) l = l.
Proof.
  induction l as [|x l IH]; [done|].
  rewrite filter_cons_True; [by rewrite IH | apply not_elem_of_nil].
Qed.

Lemma matching_hosts_spec (hp : string) (r : registry) :
  matching_hosts hp r = resolve_spec (enumerated r) hp r.
Proof.
  unfold matching_hosts, resolve_spec, enumerated, sorted_hosts.
  rewrite (visit_loop hp (hostnames r) _ [] ∅) by set_solver.
  simpl. rewrite filter_all. do 2 f_equal.
  rewrite <- merge_sort_filter, list_filter_filter. done.
Qed.

Lemma enumerated_enumeration (r : registry) : enumeration r (enumerated r).
Proof.
  split; [apply merge_sort_Permutation|].
  eapply Sorted_impl; [|apply (Sorted_merge_sort key_le)].
  intros x y. apply key_le_segments_le.
Qed.

Lemma enumeration_unique (r : registry) (l : list string) :
  enumeration r l → l = enumerated r.
Proof.
  intros [Hp Hs]. apply (Sorted_unique key_le).
  - eapply Sorted_impl; [|done]. intros x y. apply key_le_segments_le.
  - apply Sorted_merge_sort; apply _.
  - unfold enumerated. by rewrite merge_sort_Permutation.
Qed.

(** ** [extract_hosts] *)

Lemma extract_hosts_unfold (config : option (list string)) (g : globals) :
  extract_hosts config g =
    let hosts := candidates config (PATTERN g) in
    if (1 <? length hosts)%nat && negb (MASS_MODE g)
    then (config_events config ++ ambiguity_report hosts, Exit 1)
    else (config_events config,
          Return (with_hosts g (split_pattern (PATTERN g)).1
                    (match hosts with
                     | [] => [(split_pattern (PATTERN g)).2]
                     | _ => hosts
                     end))).
Proof.
  unfold extract_hosts, candidates.
  destruct (split_pattern (PATTERN g)) as [username host_pattern].
  destruct config as [lines|]; simpl;
    unfold mbind, prog_bind, mret, prog_ret, emit, sys_exit; simpl.
  - destruct (_ && _); simpl; [|done].
    unfold ambiguity_report. simpl. by rewrite app_nil_r.
  - done.
Qed.

Lemma enumerated_elem (r : registry) (a : string) :
  a ∈ enumerated r ↔ a ∈ hosts_set r ∧ ¬ is_wildcard a.
Proof.
  unfold enumerated. rewrite merge_sort_Permutation, list_elem_of_filter, elem_of_elements.
  tauto.
Qed.

Lemma keep_first_elem (l : list string) (x : string) : x ∈ keep_first l ↔ x ∈ l.
Proof.
  induction l as [|y l IH]; simpl; [done|].
  rewrite !elem_of_cons, list_elem_of_filter, IH.
  destruct (decide (x = y)); tauto.
Qed.

Lemma keep_first_NoDup (l : list string) : NoDup (keep_first l).
Proof.
  induction l as [|y l IH]; simpl; constructor.
  - rewrite list_elem_of_filter. tauto.
  - by apply NoDup_filter.
Qed.

(** The hosts found are the addresses of the aliases without wildcard
    that match the pattern. *)
Lemma matching_hosts_elem (hp : string) (r : registry) (t : string) :
  t ∈ matching_hosts hp r ↔
  ∃ a, a ∈ hosts_set r ∧ ¬ is_wildcard a ∧ matches hp a ∧ t = address (hostnames r) a.
Proof.
  rewrite matching_hosts_spec. unfold resolve_spec.
  rewrite keep_first_elem, list_elem_of_fmap. split.
  - intros (a & -> & [Hm Ha%enumerated_elem]%list_elem_of_filter). exists a. tauto.
  - intros (a & Hs & Hw & Hm & ->). exists a. split; [done|].
    apply list_elem_of_filter. split; [done|]. by apply enumerated_elem.
Qed.

Lemma matching_hosts_NoDup (hp : string) (r : registry) : NoDup (matching_hosts hp r).
Proof. rewrite matching_hosts_spec. apply keep_first_NoDup. Qed.

Lemma matching_hosts_none (hp : string) (r : registry) :
  (∀ a, a ∈ hosts_set r → ¬ matches hp a) → matching_hosts hp r = [].
Proof.
  intros H. apply elem_of_nil_inv. intros t (a & Ha & _ & Hm & _)%matching_hosts_elem.
  by apply (H a).
Qed.

(** ** Input validation and the main program *)

Lemma validate_command_forbidden (g : globals) (cmd : string) :
  cmd ∈ forbidden_commands →
  Py.contains cmd (Py.join " " (COMMAND g)) = true →
  validate_command g = ([], Exit 1).
Proof.
  unfold validate_command, forbidden_commands.
  rewrite !elem_of_cons, elem_of_nil. simpl.
  intros [->|[->|[->|[]]]] H; rewrite ?H; [done| |].
  - by destruct (Py.contains "shutdown" _).
  - destruct (Py.contains "shutdown" _); [done|].
    by destruct (Py.contains "poweroff" _).
Qed.

Lemma validate_command_no_events (g : globals) : (validate_command g).1 = [].
Proof.
  unfold validate_command. simpl.
  repeat (destruct (Py.contains _ _); [done|]). done.
Qed.

Lemma validate_input_no_events (args : arguments) : (validate_input args).1 = [].
Proof.
  unfold validate_input.
  destruct (MASS_MODE _); [|done]. destruct (COMMAND _); [done|].
  unfold mbind, prog_bind. pose proof (validate_command_no_events (assign_globals args)) as E.
  destruct (validate_command _) as [t [[]|c|e]]; simpl in *; by subst.
Qed.

Lemma validate_input_single (args : arguments) :
  arg_mass args = false → validate_input args = ([], Return (assign_globals args)).
Proof. unfold validate_input. simpl. by intros ->. Qed.

Lemma main_unfold (args : arguments) (config : option (list string))
    (env : environment) (sched : list nat) (listdir : listdir_oracle) :
  arg_pattern args ∉ ["-h"; "--help"] →
  main args config env sched listdir =
    (g ← validate_input args;
     setup_logging env g;;
     g ← extract_hosts config g;
     if MASS_MODE g then parallel_execute env sched listdir g
     else execute_ssh_command env g).
Proof. intros H. unfold main. by rewrite bool_decide_eq_false_2. Qed.

Lemma setup_logging_ready (env : environment) (g : globals) :
  log_ready env g → setup_logging env g = ([], Return tt).
Proof.
  unfold setup_logging. intros [->| ->]; [done|]. by destruct (Py.truthy _).
Qed.

Lemma setup_logging_raises (env : environment) (g : globals) (e : string) :
  Py.truthy (LOG_FILE g) = true → open_log env (LOG_FILE g) = Some e →
  setup_logging env g = ([], Raise e).
Proof. unfold setup_logging. by intros -> ->. Qed.

Lemma setup_logging_cases (env : environment) (g : globals) :
  log_ready env g ∨
  ∃ e, Py.truthy (LOG_FILE g) = true ∧ open_log env (LOG_FILE g) = Some e.
Proof.
  unfold log_ready. destruct (Py.truthy (LOG_FILE g)); [|by left; left].
  destruct (open_log env (LOG_FILE g)) as [e|]; [|by left; right].
  right. by exists e.
Qed.

Lemma bind_raise {A B} (m : prog A) (f : A → prog B) (t : list event) (e : string) :
  m = (t, Raise e) → (m ≫= f) = (t, Raise e).
Proof. by intros ->. Qed.

Lemma bind_exit {A B} (m : prog A) (f : A → prog B) (t : list event) (c : Z) :
  m = (t, Exit c) → (m ≫= f) = (t, Exit c).
Proof. by intros ->. Qed.

Lemma bind_return {A B} (m : prog A) (f : A → prog B) (a : A) :
  m = ([], Return a) → (m ≫= f) = f a.
Proof. intros ->. unfold mbind, prog_bind. simpl. by destruct (f a). Qed.

Lemma main_unfold_ready (args : arguments) (config : option (list string))
    (env : environment) (sched : list nat) (listdir : listdir_oracle)
    (g : globals) :
  arg_pattern args ∉ ["-h"; "--help"] →
  validate_input args = ([], Return g) →
  log_ready env g →
  main args config env sched listdir =
    (g ← extract_hosts config g;
     if MASS_MODE g then parallel_execute env sched listdir g
     else execute_ssh_command env g).
Proof.
  intros Hp Hv Hl. rewrite main_unfold by done.
  rewrite (bind_return _ _ _ Hv).
  by rewrite (bind_return _ _ _ (setup_logging_ready env g Hl)).
Qed.

Lemma validate_input_forbidden (args : arguments) (cmd : string) :
  arg_mass args = true →
  cmd ∈ forbidden_commands →
  Py.contains cmd (Py.join " " (arg_command args)) = true →
  validate_input args = ([], Exit 1).
Proof.
  intros Hm Hc Hin. unfold validate_input. simpl. rewrite Hm.
  destruct (arg_command args) as [|c l] eqn:E; [done|].
  apply bind_exit. apply (validate_command_forbidden _ cmd); [done|].
  simpl. by rewrite E.
Qed.

(** C8: in mass mode, a command whose joined text contains one of
    [shutdown], [poweroff], [reboot] stops the run in the input validation
    with exit code 1: nothing is performed, neither the host resolution
    (no read of the registry) nor a connection. *)
Theorem restricted_command_rejected (args : arguments) (cmd : string) :
  arg_mass args = true →
  cmd ∈ forbidden_commands →
  Py.contains cmd (Py.join " " (arg_command args)) = true →
  validate_input args = ([], Exit 1) ∧
  ∀ config env sched listdir,
    arg_pattern args ∉ help_patterns →
    main args config env sched listdir = ([], Exit 1).
Proof.
  intros Hm Hc Hin.
  pose proof (validate_input_forbidden args cmd Hm Hc Hin) as Hv.
  split; [done|]. intros config env sched listdir Hp.
  rewrite main_unfold by done. by apply bind_exit.
Qed.

(** Membership in a list of string literals, decided by comparison. *)
Ltac not_among :=
  let H := fresh in
  intros H;
  repeat (apply elem_of_cons in H as [H|H]; [discriminate H|]);
  by apply elem_of_nil in H.

Lemma restricted_command_rejected_witness :
  main (args_of true "web" ["sudo"; "shutdown -h now"])
       (Some example_config) refusing_env [] elements
  = ([], Exit 1).
Proof.
  apply (restricted_command_rejected
           (args_of true "web" ["sudo"; "shutdown -h now"]) "shutdown").
  - reflexivity.
  - unfold forbidden_commands. apply elem_of_cons. by left.
  - vm_compute. reflexivity.
  - unfold help_patterns. not_among.
Defined.

(** C10: in mass mode without a command the run stops in the input
    validation with exit code 1, before the registry is read and before
    any connection. *)
Theorem mass_requires_command (args : arguments) :
  arg_mass args = true →
  arg_command args = [] →
  validate_input args = ([], Exit 1) ∧
  ∀ config env sched listdir,
    arg_pattern args ∉ help_patterns →
    main args config env sched listdir = ([], Exit 1).
Proof.
  intros Hm Hc.
  assert (validate_input args = ([], Exit 1)) as Hv.
  { unfold validate_input. simpl. by rewrite Hm, Hc. }
  split; [done|]. intros config env sched listdir Hp.
  rewrite main_unfold by done. by apply bind_exit.
Qed.

Lemma mass_requires_command_witness :
  main (args_of true "web" []) (Some example_config) refusing_env [] elements
  = ([], Exit 1).
Proof.
  apply (mass_requires_command (args_of true "web" [])); try reflexivity.
  unfold help_patterns. not_among.
Defined.

(** ** Resolution: ambiguity, fallback, enumeration *)

Lemma ambiguity_report_not_remote (hosts : list string) :
  Forall (λ e, ¬ is_remote e) (ambiguity_report hosts).
Proof.
  unfold ambiguity_report. rewrite !Forall_app. repeat split.
  - repeat constructor; simpl; tauto.
  - apply Forall_fmap, Forall_forall. intros h _. simpl. tauto.
  - repeat constructor; simpl; tauto.
Qed.

Lemma config_events_not_remote (config : option (list string)) :
  Forall (λ e, ¬ is_remote e) (config_events config).
Proof. destruct config; repeat constructor; simpl; tauto. Qed.

(** C4: when the resolution finds more than one host and mass mode is
    off, [extract_hosts] prints every candidate and leaves with
    [sys.exit(1)].  In a run with such arguments no event reaches a remote
    host: when the log file is absent or can be opened, the run is that
    resolution and ends there with exit code 1; when [setup_logging]
    cannot open the log file, the run ends before the resolution with the
    exception of that [open]. *)
Theorem ambiguous_without_mass (config : option (list string)) (g : globals) :
  MASS_MODE g = false →
  (1 < length (candidates config (PATTERN g)))%nat →
  extract_hosts config g =
    (config_events config ++ ambiguity_report (candidates config (PATTERN g)), Exit 1) ∧
  (∀ host, host ∈ candidates config (PATTERN g) →
           print ("- " +:+ host) ∈ (extract_hosts config g).1) ∧
  ∀ args env sched listdir,
    assign_globals args = g →
    arg_pattern args ∉ help_patterns →
    Forall (λ e, ¬ is_remote e) (main args config env sched listdir).1 ∧
    (log_ready env g →
     main args config env sched listdir =
       (config_events config ++ ambiguity_report (candidates config (PATTERN g)), Exit 1)) ∧
    (∀ e, Py.truthy (LOG_FILE g) = true → open_log env (LOG_FILE g) = Some e →
          main args config env sched listdir = ([], Raise e)).
Proof.
  intros Hm Hlen.
  assert (extract_hosts config g =
    (config_events config ++ ambiguity_report (candidates config (PATTERN g)), Exit 1)) as He.
  { rewrite extract_hosts_unfold. simpl. rewrite Hm.
    apply Nat.ltb_lt in Hlen. by rewrite Hlen. }
  split; [done|]. split.
  - intros host Hh. rewrite He. simpl. apply elem_of_app. right.
    unfold ambiguity_report. apply elem_of_app. right. apply elem_of_app. left.
    apply list_elem_of_fmap. by exists host.
  - intros args env sched listdir <- Hp.
    assert (log_ready env (assign_globals args) →
            main args config env sched listdir =
              (config_events config ++
                 ambiguity_report (candidates config (PATTERN (assign_globals args))),
               Exit 1)) as Hready.
    { intros Hl.
      rewrite (main_unfold_ready _ _ _ _ _ _ Hp (validate_input_single args Hm) Hl).
      by apply bind_exit. }
    assert (∀ e, Py.truthy (LOG_FILE (assign_globals args)) = true →
                 open_log env (LOG_FILE (assign_globals args)) = Some e →
                 main args config env sched listdir = ([], Raise e)) as Hraise.
    { intros e Ht Ho. rewrite main_unfold by done.
      rewrite (bind_return _ _ _ (validate_input_single args Hm)).
      apply bind_raise. by apply setup_logging_raises. }
    split; [|done].
    destruct (setup_logging_cases env (assign_globals args)) as [Hl|(e & Ht & Ho)].
    + rewrite (Hready Hl). simpl. apply Forall_app. split;
        [apply config_events_not_remote | apply ambiguity_report_not_remote].
    + rewrite (Hraise e Ht Ho). constructor.
Qed.

Lemma ambiguous_without_mass_witness :
  (1 < length (candidates (Some example_config) "web"))%nat ∧
  main (args_of false "web" ["uptime"]) (Some example_config) refusing_env [] elements =
    ([ReadConfig] ++ ambiguity_report ["web1.example.com"; "web2.example.com"], Exit 1).
Proof.
  assert (1 < length (candidates (Some example_config) "web"))%nat as Hlen
    by (vm_compute; lia).
  split; [exact Hlen|].
  destruct (ambiguous_without_mass (Some example_config)
              (assign_globals (args_of false "web" ["uptime"])) eq_refl Hlen)
    as (_ & _ & Hmain).
  assert (arg_pattern (args_of false "web" ["uptime"]) ∉ help_patterns) as Hp
    by (unfold help_patterns; not_among).
  destruct (Hmain (args_of false "web" ["uptime"]) refusing_env [] elements eq_refl Hp)
    as (_ & Hrun & _).
  rewrite Hrun by (left; reflexivity).
  vm_compute. reflexivity.
Defined.

(** With a log file that cannot be opened the same run ends in
    [setup_logging]. *)
Example ambiguous_run_without_log_file :
  main {| arg_debug := false; arg_verbose := false; arg_x11 := false;
          arg_port := ""; arg_local_forward := ""; arg_dynamic_forward := "";
          arg_log_file := "/var/log/xssh/run.log"; arg_mass := false;
          arg_sudo := false; arg_pattern := "web"; arg_command := ["uptime"] |}
       (Some example_config) no_log_env [] elements
  = ([], Raise "FileNotFoundError").
Proof. by vm_compute. Qed.

(** C9: when no alias of the registry matches the host pattern, the
    resolution gives the one host [host_pattern], the pattern behind the
    first ["@"] if there is one; and no resolution that returns leaves
    [HOSTS] empty. *)
Theorem fallback_to_pattern :
  (∀ (config : option (list string)) (g : globals),
     (∀ lines a, config = Some lines → a ∈ hosts_set (parse_config lines) →
                 ¬ matches (split_pattern (PATTERN g)).2 a) →
     extract_hosts config g =
       (config_events config,
        Return (with_hosts g (split_pattern (PATTERN g)).1
                  [(split_pattern (PATTERN g)).2]))) ∧
  (∀ (config : option (list string)) (g g' : globals) (t : list event),
     extract_hosts config g = (t, Return g') → HOSTS g' ≠ []).
Proof.
  split.
  - intros config g Hno. rewrite extract_hosts_unfold.
    assert (candidates config (PATTERN g) = []) as ->; [|done].
    destruct config as [lines|]; [|done]. simpl.
    apply matching_hosts_none. intros a Ha. by apply (Hno lines).
  - intros config g g' t. rewrite extract_hosts_unfold. simpl.
    destruct (_ && _); [done|]. intros [= _ <-]. simpl.
    by destruct (candidates config (PATTERN g)).
Qed.

Lemma fallback_to_pattern_witness :
  extract_hosts (Some example_config) (assign_globals (args_of false "root@mail" ["uptime"])) =
    ([ReadConfig],
     Return (with_hosts (assign_globals (args_of false "root@mail" ["uptime"]))
               "root" ["mail"])).
Proof.
  apply (proj1 fallback_to_pattern (Some example_config)
           (assign_globals (args_of false "root@mail" ["uptime"]))).
  intros lines a [= <-] Ha.
  assert (a ∈ elements (hosts_set (parse_config example_config))) as Hel
    by by apply elem_of_elements.
  vm_compute in Hel.
  repeat (apply elem_of_cons in Hel as [->|Hel]; [by vm_compute|]).
  by apply elem_of_nil in Hel.
Defined.

(** C3: the resolution loop computes what the specification says: of the
    aliases without wildcard, listed in the order of their segment
    sequences (there is exactly one such list), those whose lowercase form
    contains the lowercase host pattern are mapped to their address (the
    alias itself without a [Hostname]), and every address is kept where it
    occurs first.  For the registry of the example and the pattern [web]
    in mass mode this gives [web1.example.com] and [web2.example.com], in
    that order. *)
Theorem resolution_follows_spec :
  (∀ (r : registry) (host_pattern : string),
     ∃ l, enumeration r l ∧ (∀ l', enumeration r l' → l' = l) ∧
          matching_hosts host_pattern r = resolve_spec l host_pattern r) ∧
  (∀ g : globals,
     PATTERN g = "web" → MASS_MODE g = true →
     extract_hosts (Some example_config) g =
       ([ReadConfig],
        Return (with_hosts g "" ["web1.example.com"; "web2.example.com"]))).
Proof.
  split.
  - intros r hp. exists (enumerated r). split; [apply enumerated_enumeration|].
    split; [|apply matching_hosts_spec].
    intros l' H. by apply enumeration_unique.
  - intros g Hp Hm. rewrite extract_hosts_unfold, Hp, Hm. by vm_compute.
Qed.

Lemma resolution_follows_spec_witness :
  extract_hosts (Some example_config) (assign_globals (args_of true "web" ["uptime"])) =
    ([ReadConfig],
     Return (with_hosts (assign_globals (args_of true "web" ["uptime"])) ""
               ["web1.example.com"; "web2.example.com"])).
Proof.
  apply (proj2 resolution_follows_spec
           (assign_globals (args_of true "web" ["uptime"]))); reflexivity.
Defined.

(** ** Substrings *)

Lemma prefix_spec (p s : string) :
  String.prefix p s = true ↔ ∃ post, s = p +:+ post.
Proof.
  revert s. induction p as [|c p IH]; intros s; simpl.
  - split; [intros _; by exists s | by destruct s].
  - destruct s as [|d s]; simpl.
    + split; [done | intros [post H]; by rewrite app_cons_s in H].
    + destruct (ascii_dec c d) as [->|N].
      * rewrite IH. split; intros [post H]; exists post.
        -- by rewrite app_cons_s, H.
        -- rewrite app_cons_s in H. by injection H.
      * split; [done | intros [post H]; rewrite app_cons_s in H; congruence].
Qed.

Lemma contains_nil (sub : string) :
  Py.contains sub "" = String.prefix sub "" || false.
Proof. reflexivity. Qed.

Lemma contains_cons (sub : string) (c : ascii) (s : string) :
  Py.contains sub (String c s) = String.prefix sub (String c s) || Py.contains sub s.
Proof. reflexivity. Qed.

Lemma contains_spec (sub s : string) :
  Py.contains sub s = true ↔ ∃ pre post, s = pre +:+ sub +:+ post.
Proof.
  induction s as [|c s IH].
  - rewrite contains_nil, orb_true_iff, prefix_spec. split.
    + intros [[post H]|?]; [|done]. by exists "", post.
    + intros ([|d pre] & post & H); [left; by exists post|by rewrite app_cons_s in H].
  - rewrite contains_cons, orb_true_iff, prefix_spec, IH. split.
    + intros [[post H]|(pre & post & ->)]; [by exists "", post|].
      by exists (String c pre), post.
    + intros ([|d pre] & post & H); [left; by exists post|].
      right. rewrite app_cons_s in H. injection H as -> ->. by exists pre, post.
Qed.

Lemma lower_app (a b : string) : Py.lower (a +:+ b) = Py.lower a +:+ Py.lower b.
Proof.
  induction a as [|c a IH]; [done|].
  rewrite app_cons_s. simpl. by rewrite app_cons_s, IH.
Qed.

Lemma lower_app_inv (s a b : string) :
  Py.lower s = a +:+ b → ∃ a' b', s = a' +:+ b' ∧ Py.lower a' = a ∧ Py.lower b' = b.
Proof.
  revert s. induction a as [|c a IH]; intros s H.
  - by exists "", s.
  - destruct s as [|d s]; [done|]. simpl in H. rewrite app_cons_s in H.
    injection H as Hc H. destruct (IH _ H) as (a' & b' & -> & <- & <-).
    exists (String d a'), b'. by rewrite app_cons_s, <- Hc.
Qed.

(** The test [word in s.lower()] is the search of [word] in [s] without
    regard to case. *)
Lemma contains_lower (word s : string) :
  Py.contains word (Py.lower s) = true ↔ contains_ci word s.
Proof.
  rewrite contains_spec. unfold contains_ci. split.
  - intros (pre & post & H).
    apply lower_app_inv in H as (pre' & rest & -> & _ & H).
    apply lower_app_inv in H as (mid & post' & -> & H & _).
    by exists pre', mid, post'.
  - intros (pre & mid & post & -> & <-).
    exists (Py.lower pre), (Py.lower post). by rewrite !lower_app.
Qed.

(** ** The registry never holds a wildcard *)

Lemma declare_alias_wildcard (r : registry) (h : string) :
  is_wildcard h → declare_alias r h = r.
Proof. unfold is_wildcard, declare_alias. by intros ->. Qed.

Lemma declare_alias_plain (r : registry) (h : string) :
  ¬ is_wildcard h →
  declare_alias r h =
    {| current_host := h; hostnames := hostnames r; hosts_set := {[h]} ∪ hosts_set r |}.
Proof.
  unfold is_wildcard, declare_alias. by destruct (Py.contains "*" h).
Qed.

Lemma declare_alias_free (r : registry) (h : string) :
  wildcard_free r → wildcard_free (declare_alias r h).
Proof.
  intros (Hc & Hs & Hn). destruct (decide (is_wildcard h)) as [W|W].
  - by rewrite declare_alias_wildcard.
  - rewrite declare_alias_plain by done. repeat split; simpl; [done| |done].
    intros a [->%elem_of_singleton|?]%elem_of_union; auto.
Qed.

Lemma declare_aliases_free (r : registry) (l : list string) :
  wildcard_free r → wildcard_free (foldl declare_alias r l).
Proof.
  revert r. induction l as [|h l IH]; intros r H; simpl; [done|].
  by apply IH, declare_alias_free.
Qed.

Lemma parse_line_free (r : registry) (line : string) :
  wildcard_free r → wildcard_free (parse_line r line).
Proof.
  intros H. unfold parse_line.
  destruct (_ || _); [done|].
  destruct (Py.startswith "Host " _); [by apply declare_aliases_free|].
  destruct (Py.startswith "Hostname " _); [|done].
  destruct (Py.truthy _); [|done].
  destruct (Py.split _) as [|? [|value ?]]; [done..|].
  destruct H as (Hc & Hs & Hn). repeat split; simpl; [done..|].
  intros a. rewrite lookup_insert. case_decide; subst; auto.
Qed.

Lemma parse_config_free (lines : list string) : wildcard_free (parse_config lines).
Proof.
  unfold parse_config.
  assert (wildcard_free empty_registry) as H.
  { repeat split; simpl.
    - by vm_compute.
    - set_solver.
    - intros a. rewrite lookup_empty. by intros [? ?]. }
  revert H. generalize empty_registry.
  induction lines as [|line lines IH]; intros r H; simpl; [done|].
  by apply IH, parse_line_free.
Qed.

(** C5, as the code has it: an alias with a wildcard on a [Host] line is
    skipped.  It leaves the registry as it was, so it does not become the
    current host; it is no member of the set of aliases that can be
    matched; and every host the resolution finds in the registry is the
    address of an alias without wildcard. *)
Theorem wildcard_aliases_skipped :
  (∀ (r : registry) (h : string), is_wildcard h → declare_alias r h = r) ∧
  (∀ lines : list string,
     ¬ is_wildcard (current_host (parse_config lines)) ∧
     ∀ a, a ∈ hosts_set (parse_config lines) → ¬ is_wildcard a) ∧
  (∀ (lines : list string) (host_pattern t : string),
     t ∈ matching_hosts host_pattern (parse_config lines) →
     ∃ a, a ∈ hosts_set (parse_config lines) ∧ ¬ is_wildcard a ∧
          t = address (hostnames (parse_config lines)) a).
Proof.
  split; [apply declare_alias_wildcard|]. split.
  - intros lines. destruct (parse_config_free lines) as (Hc & Hs & _). done.
  - intros lines hp t (a & Ha & Hw & _ & ->)%matching_hosts_elem. by exists a.
Qed.

Lemma wildcard_aliases_skipped_witness :
  declare_alias (parse_config ["Host web1"]) "*.example.com" = parse_config ["Host web1"].
Proof.
  apply (proj1 wildcard_aliases_skipped). by vm_compute.
Defined.

(** C5 as stated fails: after [Host *.example.com] the current host is
    still the alias of the line before, and the [Hostname] that follows
    is recorded for that alias. *)
Lemma wildcard_is_not_current_host :
  current_host (parse_config ["Host web1"; "Host *.example.com"]) ≠ "*.example.com" ∧
  current_host (parse_config ["Host web1"; "Host *.example.com"]) = "web1" ∧
  hostnames (parse_config ["Host web1"; "Host *.example.com"; "Hostname 10.9.9.9"])
    !! "web1" = Some "10.9.9.9".
Proof. by vm_compute. Qed.

(** ** The remote command *)

Lemma findall_go_scan (c : ascii) (t : string) :
  findall_go 0 (String c t) =
    match match_here (String c t) with
    | Some body => ("(" +:+ body +:+ ")") :: findall_go (String.length body + 2) t
    | None => findall_go 0 t
    end.
Proof. reflexivity. Qed.

Lemma match_here_other (c : ascii) (t : string) :
  c ≠ "<"%char → match_here (String c t) = None.
Proof.
  intros N. destruct t as [|d t]; [done|]. unfold match_here.
  by rewrite bool_decide_eq_false_2.
Qed.

Lemma findall_go_no_marker (s : string) (k : nat) :
  Py.contains_char "<" s = false → findall_go k s = [].
Proof.
  revert k. induction s as [|c s IH]; intros k H; [done|].
  simpl in H. apply orb_false_elim in H as [Hc Hs].
  apply bool_decide_eq_false in Hc.
  destruct k as [|k]; [|by apply IH].
  rewrite findall_go_scan, match_here_other by congruence. by apply IH.
Qed.

Lemma no_metacharacter_no_marker (cmd_str : string) :
  has_metacharacter cmd_str = false → Py.contains_char "<" cmd_str = false.
Proof.
  unfold has_metacharacter, metacharacters. simpl.
  intros H. repeat (apply orb_false_elim in H as [? H]). done.
Qed.

Lemma handle_process_substitution_plain (fifo : fifo_oracle) (cmd : string) :
  Py.contains_char "<" cmd = false → handle_process_substitution fifo cmd = cmd.
Proof.
  intros H. unfold handle_process_substitution, findall.
  by rewrite findall_go_no_marker.
Qed.

(** Several tokens: each one between single quotes, behind [sh -c]. *)
Lemma wrap_remote_command_tokens (fifo : fifo_oracle) (g : globals)
    (c1 c2 : string) (rest : list string) :
  COMMAND g = c1 :: c2 :: rest →
  wrap_remote_command fifo g =
    sudo_prefix g +:+ "sh -c " +:+ Py.join " " (quote <$> COMMAND g).
Proof.
  intros H. unfold wrap_remote_command, sudo_prefix. rewrite H.
  cbn [length Nat.eqb]. rewrite orb_true_r. by destruct (SUDO_MODE g).
Qed.

(** One token: the token after the process substitution, as it is. *)
Lemma wrap_remote_command_token (fifo : fifo_oracle) (g : globals) (c : string) :
  COMMAND g = [c] →
  wrap_remote_command fifo g = sudo_prefix g +:+ handle_process_substitution fifo c.
Proof.
  intros H. unfold wrap_remote_command, sudo_prefix. rewrite H. simpl.
  by destruct (SUDO_MODE g).
Qed.

Lemma wrap_remote_command_plain_token (fifo : fifo_oracle) (g : globals) (c : string) :
  COMMAND g = [c] →
  has_metacharacter c = false →
  wrap_remote_command fifo g = sudo_prefix g +:+ c.
Proof.
  intros H Hm. rewrite (wrap_remote_command_token fifo g c H).
  by rewrite handle_process_substitution_plain by by apply no_metacharacter_no_marker.
Qed.

(** C1 at the command [["ls;id"]]: the one token holds the
    metacharacter [;], and the command built is the token itself, not
    the [sh -c] form with the token between quotes. *)
Theorem single_token_with_metacharacter (fifo : fifo_oracle) :
  let g := assign_globals (args_of false "host" ["ls;id"]) in
  has_metacharacter (Py.join " " (COMMAND g)) = true ∧
  wrap_remote_command fifo g = "ls;id" ∧
  wrap_remote_command fifo g ≠ "sh -c " +:+ Py.join " " (quote <$> COMMAND g).
Proof.
  intros g. split; [by vm_compute|].
  assert (wrap_remote_command fifo g = "ls;id") as ->; [|done].
  rewrite (wrap_remote_command_token fifo g "ls;id" eq_refl).
  by rewrite handle_process_substitution_plain.
Qed.

(** ** Per-host execution *)


Lemma exit_code_of_quiet (output : string) :
  ¬ contains_ci "error" output → ¬ contains_ci "not found" output →
  exit_code_of output 0 = 0.
Proof.
  rewrite <- !contains_lower. unfold exit_code_of. simpl.
  by destruct (Py.contains "error" _), (Py.contains "not found" _).
Qed.



(** ** Interleavings of a fleet run *)

Lemma perform_lookup (w : world) (a : action) (name : string) :
  files (perform w a) !! name = file_effect name (files w !! name) a.
Proof.
  destruct a as [e|[|n] text|[|n] text]; simpl; try done;
    rewrite lookup_insert; case_decide; case_bool_decide; subst; congruence.
Qed.

Lemma run_lookup (w : world) (acts : list action) (name : string) :
  files (foldl perform w acts) !! name = written name acts (files w !! name).
Proof.
  revert w. induction acts as [|a acts IH]; intros w; simpl; [done|].
  by rewrite IH, perform_lookup.
Qed.

Lemma join_all_concat (w : world) (ts : list (list action)) :
  join_all w ts = foldl perform w (concat ts).
Proof.
  revert w. unfold join_all. induction ts as [|t ts IH]; intros w; simpl; [done|].
  by rewrite foldl_app, IH.
Qed.

Lemma written_app (name : string) (a b : list action) (old : option string) :
  written name (a ++ b) old = written name b (written name a old).
Proof. apply foldl_app. Qed.

Lemma file_effect_untouched (name : string) (a : action) (old : option string) :
  ¬ touches name a → file_effect name old a = old.
Proof.
  destruct a as [e|[|n] text|[|n] text]; simpl; try done;
    intros N; by rewrite bool_decide_eq_false_2.
Qed.

Lemma written_untouched (name : string) (acts : list action) (old : option string) :
  Forall (λ a, ¬ touches name a) acts → written name acts old = old.
Proof.
  induction 1 as [|a acts Ha _ IH]; simpl; [done|].
  unfold written in *. simpl. by rewrite file_effect_untouched.
Qed.

Lemma disjoint_step (ts : list (list action)) (i : nat) (a : action)
    (rest : list action) :
  disjoint_threads ts → ts !! i = Some (a :: rest) →
  disjoint_threads (<[i := rest]> ts).
Proof.
  intros Hd Hi j k tj tk name Hjk Hj Hk Hex.
  apply list_lookup_insert_Some in Hj as [(<- & <- & _)|(Nj & Hj)];
    apply list_lookup_insert_Some in Hk as [(<- & <- & _)|(Nk & Hk)]; try done.
  - apply (Hd i k (a :: rest) tk name); auto.
  - assert (Forall (λ a, ¬ touches name a) (a :: rest)) as F
      by (apply (Hd j i tj (a :: rest) name); auto).
    by inversion F.
  - by apply (Hd j k tj tk name).
Qed.

(** One step of a thread commutes with what the other threads still
    have to do: the content every file will have in the end is the same
    before and after the step. *)
Lemma step_written (ts : list (list action)) (i : nat) (a : action)
    (rest : list action) (name : string) (old : option string) :
  disjoint_threads ts → ts !! i = Some (a :: rest) →
  written name (concat (<[i := rest]> ts)) (file_effect name old a) =
  written name (concat ts) old.
Proof.
  intros Hd Hi.
  pose proof (lookup_lt_Some _ _ _ Hi) as Hlt.
  rewrite insert_take_drop by done.
  rewrite <- (take_drop_middle ts i (a :: rest) Hi) at 3.
  rewrite !concat_app, !concat_cons, !written_app.
  destruct (decide (touches name a)) as [T|T].
  - assert (Forall (λ a, ¬ touches name a) (concat (take i ts))) as F.
    { apply Forall_concat, Forall_forall. intros tj Hj.
      apply list_elem_of_lookup in Hj as [j Hj].
      apply lookup_take_Some in Hj as [Hj Hji].
      apply (Hd i j (a :: rest) tj name); [lia|done..|]. by left. }
    rewrite !(written_untouched _ _ _ F). done.
  - rewrite (file_effect_untouched _ _ _ T).
    unfold written at 3. simpl. by rewrite (file_effect_untouched _ _ _ T).
Qed.

Lemma run_threads_written (sched : list nat) (w : world)
    (ts : list (list action)) (name : string) :
  disjoint_threads ts →
  written name (concat (run_threads sched w ts).2)
          (files (run_threads sched w ts).1 !! name) =
  written name (concat ts) (files w !! name).
Proof.
  revert w ts. induction sched as [|i sched IH]; intros w ts Hd; simpl; [done|].
  destruct (ts !! i) as [[|a rest]|] eqn:Hi; [by apply IH| |by apply IH].
  rewrite IH by by eapply disjoint_step.
  rewrite perform_lookup. by apply step_written.
Qed.

(** Whatever the schedule, the files after the join are those of the
    threads run one after the other. *)
Lemma fleet_files_lookup (env : environment) (sched : list nat) (g : globals)
    (name : string) :
  disjoint_threads (thread_of env g <$> HOSTS g) →
  files (fleet_files env sched g) !! name =
  written name (concat (thread_of env g <$> HOSTS g)) None.
Proof.
  intros Hd. unfold fleet_files.
  pose proof (run_threads_written sched empty_world _ name Hd) as H.
  destruct (run_threads sched empty_world _) as [w ts]. simpl in H.
  by rewrite join_all_concat, run_lookup.
Qed.

Lemma out_name_inj (h1 h2 : string) : out_name h1 = out_name h2 → h1 = h2.
Proof. apply app_inv_tail_s. Qed.

Global Instance out_name_Inj : Inj (=) (=) out_name.
Proof. intros h1 h2. apply out_name_inj. Qed.

(** What a thread performs never reaches the file of another entry. *)
Lemma emit_untouched (name : string) (a : action) :
  is_emit a = true → ¬ touches name a.
Proof. destruct a; simpl; [tauto|discriminate..]. Qed.

Lemma before_open_emits (acts : list action) :
  Forall (λ a, is_emit a = true) (before_open acts).
Proof.
  induction acts as [|[e|f text|f text] acts IH]; simpl; try constructor; done.
Qed.

Lemma without_writes_emits (acts : list action) :
  Forall (λ a, is_emit a = true) (without_writes acts).
Proof.
  induction acts as [|[e|f text|f text] acts IH]; simpl; try constructor; done.
Qed.

Lemma on_entry_touches (entry name : string) (a : action) :
  touches name (on_entry entry a) → entry = name.
Proof. by destruct a as [e|[|n] text|[|n] text]. Qed.

Lemma entry_of_Some (env : environment) (host entry : string) :
  entry_of env host = Some entry ↔ open_target env (out_name host) = Entry entry.
Proof.
  unfold entry_of. destruct (open_target env (out_name host)); split; congruence.
Qed.

(** A thread writes to the entry of its host only. *)
Lemma thread_of_confined (env : environment) (g : globals) (host : string) :
  Forall (λ a, ∀ name, touches name a → entry_of env host = Some name)
         (thread_of env g host).
Proof.
  unfold thread_of, entry_of, effective.
  destruct (open_target env (out_name host)) as [e| |entry].
  - eapply Forall_impl; [apply before_open_emits|].
    intros a Ha name T. by apply emit_untouched in T.
  - eapply Forall_impl; [apply without_writes_emits|].
    intros a Ha name T. by apply emit_untouched in T.
  - apply Forall_fmap, Forall_forall. intros a _ name T. simpl in T.
    by apply on_entry_touches in T as ->.
Qed.

Lemma thread_of_untouched (env : environment) (g : globals) (host name : string) :
  entry_of env host ≠ Some name → Forall (λ a, ¬ touches name a) (thread_of env g host).
Proof.
  intros N. eapply Forall_impl; [apply thread_of_confined|].
  simpl. intros a H T. by apply N, H.
Qed.

Lemma threads_untouched (env : environment) (g : globals)
    (hosts : list string) (name : string) :
  (∀ h, h ∈ hosts → entry_of env h ≠ Some name) →
  Forall (λ a, ¬ touches name a) (concat (thread_of env g <$> hosts)).
Proof.
  intros H. apply Forall_concat, Forall_fmap, Forall_forall.
  intros h Hh. simpl. by apply thread_of_untouched, H.
Qed.

Lemma disjoint_thread_of (env : environment) (g : globals) (hosts : list string) :
  NoDup hosts → separate_files env hosts →
  disjoint_threads (thread_of env g <$> hosts).
Proof.
  intros Hnd Hsep i j ti tj name Hij Hi Hj Hex.
  rewrite list_lookup_fmap in Hi, Hj.
  destruct (hosts !! i) as [hi|] eqn:Ei; [|done].
  destruct (hosts !! j) as [hj|] eqn:Ej; [|done].
  simpl in *. injection Hi as <-. injection Hj as <-.
  apply Exists_exists in Hex as (a & Ha & Ta).
  pose proof (thread_of_confined env g hi) as C.
  rewrite Forall_forall in C. pose proof (C a Ha name Ta) as Ci.
  apply thread_of_untouched. intros Cj.
  assert (hi = hj) as <-.
  { apply (Hsep hi hj name); [by eapply list_elem_of_lookup_2..|done|done]. }
  apply Hij. by eapply NoDup_lookup.
Qed.

Lemma separate_own (env : environment) (hosts : list string) :
  (∀ h, h ∈ hosts → entry_of env h = Some (out_name h)) →
  separate_files env hosts.
Proof.
  intros H h1 h2 entry H1 H2 E1 E2.
  rewrite (H h1 H1) in E1. rewrite (H h2 H2) in E2.
  apply out_name_inj. congruence.
Qed.

Lemma host_buffer_entry (env : environment) (g : globals) (h entry : string) :
  entry_of env h = Some entry →
  host_buffer env g h = written entry (thread_of env g h) None.
Proof. unfold host_buffer. by intros ->. Qed.

Lemma host_buffer_no_entry (env : environment) (g : globals) (h : string) :
  entry_of env h = None → host_buffer env g h = None.
Proof. unfold host_buffer. by intros ->. Qed.

(** The entry of a host holds the buffer of that host, and there is no
    other file. *)
Lemma written_own (env : environment) (g : globals) (hosts : list string)
    (h entry : string) :
  NoDup hosts → separate_files env hosts → h ∈ hosts →
  entry_of env h = Some entry →
  written entry (concat (thread_of env g <$> hosts)) None = host_buffer env g h.
Proof.
  intros Hnd Hsep Hh He. rewrite (host_buffer_entry _ _ _ _ He).
  pose proof Hh as Hin.
  apply list_elem_of_split in Hh as (l1 & l2 & ->).
  apply NoDup_app in Hnd as (_ & H1 & Hnd). apply NoDup_cons in Hnd as [H2 _].
  rewrite fmap_app, fmap_cons, concat_app, concat_cons, !written_app.
  rewrite (written_untouched _ (concat (thread_of env g <$> l1))).
  2:{ apply threads_untouched. intros h' Hh' E.
      assert (h' = h) as ->.
      { apply (Hsep h' h entry); [|done..]. apply elem_of_app. by left. }
      apply (H1 h); [done|]. by left. }
  rewrite (written_untouched _ (concat (thread_of env g <$> l2))); [done|].
  apply threads_untouched. intros h' Hh' E.
  assert (h' = h) as ->; [|done].
  apply (Hsep h' h entry); [|done..]. apply elem_of_app. right. by right.
Qed.

Lemma written_foreign (env : environment) (g : globals) (hosts : list string)
    (name : string) :
  (∀ h, h ∈ hosts → entry_of env h ≠ Some name) →
  written name (concat (thread_of env g <$> hosts)) None = None.
Proof. intros H. by apply written_untouched, threads_untouched. Qed.

Lemma fleet_files_host (env : environment) (sched : list nat) (g : globals)
    (h entry : string) :
  NoDup (HOSTS g) → separate_files env (HOSTS g) → h ∈ HOSTS g →
  entry_of env h = Some entry →
  files (fleet_files env sched g) !! entry = host_buffer env g h.
Proof.
  intros Hnd Hsep Hh He. rewrite fleet_files_lookup by by apply disjoint_thread_of.
  by apply written_own.
Qed.

Lemma buffer_entry_Some (env : environment) (g : globals) (h entry : string) :
  buffer_entry env g h = Some entry ↔
  entry_of env h = Some entry ∧ is_Some (host_buffer env g h).
Proof.
  unfold buffer_entry. destruct (host_buffer env g h) as [b|]; split.
  - intros ->. split; [done|]. by eexists.
  - by intros [-> _].
  - done.
  - by intros [_ []].
Qed.

Lemma fleet_files_dom (env : environment) (sched : list nat) (g : globals)
    (name : string) :
  NoDup (HOSTS g) → separate_files env (HOSTS g) →
  name ∈ dom (files (fleet_files env sched g)) ↔
  ∃ h, h ∈ HOSTS g ∧ buffer_entry env g h = Some name.
Proof.
  intros Hnd Hsep. rewrite elem_of_dom. split.
  - intros Hs.
    destruct (decide (Exists (λ h, entry_of env h = Some name) (HOSTS g))) as [E|N].
    + apply Exists_exists in E as (h & Hh & He).
      exists h. split; [done|]. apply buffer_entry_Some. split; [done|].
      by rewrite <- (fleet_files_host env sched g h name).
    + rewrite fleet_files_lookup in Hs by by apply disjoint_thread_of.
      rewrite written_foreign in Hs; [by destruct Hs|].
      intros h Hh E. apply N, Exists_exists. by exists h.
  - intros (h & Hh & [He Hs]%buffer_entry_Some).
    by rewrite (fleet_files_host env sched g h name).
Qed.

Lemma report_of_buffers (w : world) (env : environment) (g : globals)
    (l : list string) :
  (∀ h entry, h ∈ l → entry_of env h = Some entry →
              files w !! entry = host_buffer env g h) →
  (λ file, universal_newlines (default "" (files w !! file))) <$>
    omap (buffer_entry env g) l =
  universal_newlines <$> omap (host_buffer env g) l.
Proof.
  induction l as [|h l IH]; intros H; [done|]. simpl.
  assert (∀ h' entry, h' ∈ l → entry_of env h' = Some entry →
                      files w !! entry = host_buffer env g h') as Hl
    by (intros h' entry Hh'; apply H; by right).
  unfold buffer_entry at 1.
  destruct (host_buffer env g h) as [b|] eqn:Hb; [|by apply IH].
  destruct (entry_of env h) as [entry|] eqn:He.
  - simpl. rewrite (H h entry) by (done || by left). rewrite Hb. simpl.
    f_equal. by apply IH.
  - by rewrite host_buffer_no_entry in Hb.
Qed.

Lemma NoDup_omap_separate {A B} (f : A → option B) (l : list A) :
  NoDup l →
  (∀ x y z, x ∈ l → y ∈ l → f x = Some z → f y = Some z → x = y) →
  NoDup (omap f l).
Proof.
  induction 1 as [|x l Hx Hnd IH]; intros Hf; simpl; [constructor|].
  assert (NoDup (omap f l)) as IH'.
  { apply IH. intros a b z Ha Hb. apply Hf; by right. }
  destruct (f x) as [z|] eqn:Ex; [|done].
  apply NoDup_cons. split; [|done].
  intros (y & Hy & Ey)%list_elem_of_omap.
  apply Hx. rewrite (Hf x y z); [done|by left|by right|done|done].
Qed.

Lemma fleet_report_perm (env : environment) (sched : list nat)
    (listdir : listdir_oracle) (g : globals) :
  NoDup (HOSTS g) → separate_files env (HOSTS g) → listdir_contract listdir →
  fleet_report env sched listdir g ≡ₚ
    universal_newlines <$> omap (host_buffer env g) (HOSTS g).
Proof.
  intros Hnd Hsep Hl. unfold fleet_report.
  rewrite <- (report_of_buffers (fleet_files env sched g) env g (HOSTS g))
    by (intros h entry Hh He; by apply fleet_files_host).
  apply fmap_Permutation. rewrite (Hl _).
  apply NoDup_Permutation.
  - apply NoDup_elements.
  - apply NoDup_omap_separate; [done|].
    intros x y z Hx Hy [Ex _]%buffer_entry_Some [Ey _]%buffer_entry_Some.
    by apply (Hsep x y z).
  - intros name. rewrite elem_of_elements, fleet_files_dom by done.
    by rewrite list_elem_of_omap.
Qed.

(** The hosts a resolution returns are pairwise distinct. *)
Lemma extract_hosts_NoDup (config : option (list string)) (g g' : globals)
    (t : list event) :
  extract_hosts config g = (t, Return g') → NoDup (HOSTS g').
Proof.
  rewrite extract_hosts_unfold. simpl. destruct (_ && _); [done|].
  intros [= _ <-]. simpl.
  destruct (candidates config (PATTERN g)) as [|h l] eqn:E.
  - apply NoDup_singleton.
  - rewrite <- E. unfold candidates. destruct config; [|apply NoDup_nil_2].
    apply matching_hosts_NoDup.
Qed.

(** C2, as the code has it.  In mass mode, with pairwise distinct hosts
    no two of which have the same entry of the temporary directory as
    their output file: whatever the interleaving of the per-host
    executions, the join leaves in the entry of every host the complete
    output buffer of that host, and the report consists of the buffers of
    the entries, each read back with universal newlines and printed once,
    in the order in which the listing of the directory gives the entries;
    that order is any permutation, and the report need not follow the
    host list.  A host whose file is no entry of the directory has no
    buffer. *)
Theorem fleet_report_each_buffer_once (env : environment) (sched : list nat)
    (listdir : listdir_oracle) (g : globals) :
  MASS_MODE g = true →
  NoDup (HOSTS g) →
  separate_files env (HOSTS g) →
  listdir_contract listdir →
  (∀ h entry, h ∈ HOSTS g → open_target env (out_name h) = Entry entry →
        files (fleet_files env sched g) !! entry = host_buffer env g h) ∧
  (∀ h, (∀ entry, open_target env (out_name h) ≠ Entry entry) →
        host_buffer env g h = None) ∧
  fleet_report env sched listdir g ≡ₚ
    universal_newlines <$> omap (host_buffer env g) (HOSTS g) ∧
  (parallel_execute env sched listdir g).1 =
    trace (fleet_files env sched g) ++ (print <$> fleet_report env sched listdir g).
Proof.
  intros Hm Hnd Hsep Hl. split; [|split; [|split]].
  - intros h entry Hh He. apply fleet_files_host; [done..|]. by apply entry_of_Some.
  - intros h H. apply host_buffer_no_entry. unfold entry_of.
    destruct (open_target env (out_name h)) as [| |entry]; [done..|].
    by destruct (H entry).
  - by apply fleet_report_perm.
  - unfold parallel_execute. rewrite Hm.
    unfold mbind, prog_bind, emit. simpl.
    destruct (bool_decide _); simpl; by rewrite app_nil_r.
Qed.

Lemma reversed_listing_contract : listdir_contract reversed_listing.
Proof. intros names. apply reverse_Permutation. Qed.

Lemma elements_contract : listdir_contract elements.
Proof. by intros names. Qed.

(** Membership in a list of literals, case by case. *)
Ltac each_host H :=
  repeat (apply elem_of_cons in H as [->|H]; [by vm_compute|]);
  by apply elem_of_nil in H.

Lemma fleet_report_each_buffer_once_witness :
  fleet_report example_env [1; 0; 1]%nat elements
    (fleet_globals ["web1.example.com"; "web2.example.com"] ["uptime"])
  ≡ₚ universal_newlines <$>
       omap (host_buffer example_env
               (fleet_globals ["web1.example.com"; "web2.example.com"] ["uptime"]))
            ["web1.example.com"; "web2.example.com"].
Proof.
  apply (fleet_report_each_buffer_once example_env [1; 0; 1]%nat elements
           (fleet_globals ["web1.example.com"; "web2.example.com"] ["uptime"])).
  - reflexivity.
  - apply (bool_decide_unpack _). by vm_compute.
  - apply separate_own. intros h Hh. simpl in Hh. each_host Hh.
  - apply elements_contract.
Defined.

(** C2 as stated fails.  With the hosts [web1.example.com] and
    [web2.example.com] and a listing that gives [web2.example.com.out]
    first, the report starts with the buffer of the second host.  With
    the hosts [rack/web1] and [web2.example.com], the file of the first
    cannot be opened and the report has the buffer of the second only.
    An output with a carriage return before the line feed is printed
    without it.  The hosts [a] and [./a] write to the same file, and the
    report has one text for the two of them. *)
Lemma report_not_in_host_order :
  (let g := fleet_globals ["web1.example.com"; "web2.example.com"] ["uptime"] in
   listdir_contract reversed_listing ∧
   omap (host_buffer example_env g) (HOSTS g) =
     ["Connection failed on web1.example.com: timed out" +:+ nl; "done: uptime" +:+ nl] ∧
   fleet_report example_env [] reversed_listing g =
     ["done: uptime" +:+ nl; "Connection failed on web1.example.com: timed out" +:+ nl] ∧
   fleet_report example_env [] reversed_listing g ≠
     omap (host_buffer example_env g) (HOSTS g)) ∧
  (let g := fleet_globals ["rack/web1"; "web2.example.com"] ["uptime"] in
   open_target example_env (out_name "rack/web1") = OpenRaises "FileNotFoundError" ∧
   thread_of example_env g "rack/web1" =
     [Emit (Connect "rack/web1" ""); Emit (ExecCommand "rack/web1" "uptime" false)] ∧
   fleet_report example_env [] elements g = ["done: uptime" +:+ nl]) ∧
  (let g := fleet_globals ["db1"] ["uptime"] in
   omap (host_buffer crlf_env g) (HOSTS g) = ["done" +:+ String "013"%char nl] ∧
   fleet_report crlf_env [] elements g = ["done" +:+ nl]) ∧
  (let g := fleet_globals ["a"; "./a"] ["uptime"] in
   NoDup (HOSTS g) ∧
   open_target example_env (out_name "a") = Entry "a.out" ∧
   open_target example_env (out_name "./a") = Entry "a.out" ∧
   fleet_report example_env [] elements g =
     [("done: uptime" +:+ nl) +:+ ("done: uptime" +:+ nl)]).
Proof.
  split; [|split; [|split]].
  - intros g. split; [apply reversed_listing_contract|].
    assert (omap (host_buffer example_env g) (HOSTS g) =
      ["Connection failed on web1.example.com: timed out" +:+ nl; "done: uptime" +:+ nl]) as ->
      by by vm_compute.
    assert (fleet_report example_env [] reversed_listing g =
      ["done: uptime" +:+ nl; "Connection failed on web1.example.com: timed out" +:+ nl]) as ->
      by by vm_compute.
    repeat split. by vm_compute.
  - intros g. repeat split; by vm_compute.
  - intros g. repeat split; by vm_compute.
  - intros g. split; [apply (bool_decide_unpack _); by vm_compute|].
    repeat split; by vm_compute.
Qed.

(** ** Failures stay with their host *)

Lemma execute_ssh_fails (env : environment) (g : globals) (host e : string)
    (f : output_file) (prefix : string) :
  connection_fails env g host e →
  (execute_ssh env g host f prefix).1 = 1 ∧
  last (execute_ssh env g host f prefix).2 = Some (OpenA f (connection_failed host e)).
Proof.
  unfold execute_ssh.
  intros [->|(exec & -> & -> & ->)]; simpl; (split; [done|]);
    by destruct (VERBOSE_MODE g && Py.truthy prefix).
Qed.

Lemma host_buffer_fails (env : environment) (g : globals) (host e entry : string) :
  connection_fails env g host e →
  open_target env (out_name host) = Entry entry →
  host_buffer env g host = Some (header g host +:+ connection_failed host e).
Proof.
  intros Hf He. rewrite (host_buffer_entry env g host entry) by by apply entry_of_Some.
  unfold thread_of, execute_ssh, header. rewrite He.
  destruct Hf as [->|(exec & -> & -> & ->)];
    destruct (VERBOSE_MODE g); simpl; unfold written; simpl;
    by rewrite ?bool_decide_eq_true_2 by done.
Qed.

Lemma host_buffer_ran (env : environment) (g : globals) (host entry : string)
    (exec_command : string → bool → run_result) (out err : string) (st : Z) :
  ssh_connect env host (USERNAME g) = Connected exec_command →
  Py.truthy (wrap_remote_command (fifo env host) g) = true →
  exec_command (wrap_remote_command (fifo env host) g) (SUDO_MODE g)
    = RunOk out err st →
  open_target env (out_name host) = Entry entry →
  host_buffer env g host = Some (header g host +:+ out +:+ err).
Proof.
  intros Hc Ht Hr He.
  rewrite (host_buffer_entry env g host entry) by by apply entry_of_Some.
  unfold thread_of, execute_ssh, header. rewrite He, Hc, Ht, Hr.
  destruct (VERBOSE_MODE g); simpl; unfold written; simpl;
    by rewrite ?bool_decide_eq_true_2 by done.
Qed.

Lemma host_buffer_ext (env env' : environment) (g : globals) (host : string) :
  ssh_connect env' host = ssh_connect env host →
  fifo env' host = fifo env host →
  open_target env' (out_name host) = open_target env (out_name host) →
  host_buffer env' g host = host_buffer env g host.
Proof.
  unfold host_buffer, entry_of, thread_of, execute_ssh. by intros -> -> ->.
Qed.

Lemma thread_result_fails (env : environment) (g : globals) (host e : string) :
  connection_fails env g host e →
  thread_result env g host =
    match open_target env (out_name host) with
    | OpenRaises _ => None
    | _ => Some 1
    end.
Proof.
  unfold thread_result, execute_ssh.
  intros [->|(exec & -> & -> & ->)];
    destruct (open_target env (out_name host)); try done;
    by destruct (VERBOSE_MODE g).
Qed.

Lemma thread_result_ran (env : environment) (g : globals) (host entry : string)
    (exec_command : string → bool → run_result) (out err : string) (st : Z) :
  ssh_connect env host (USERNAME g) = Connected exec_command →
  Py.truthy (wrap_remote_command (fifo env host) g) = true →
  exec_command (wrap_remote_command (fifo env host) g) (SUDO_MODE g)
    = RunOk out err st →
  open_target env (out_name host) = Entry entry →
  thread_result env g host = Some (exit_code_of (out +:+ err) st).
Proof. unfold thread_result, execute_ssh. by intros -> -> -> ->. Qed.

(** C7.  The handler of [execute_ssh] records a connection or protocol
    failure by opening the output file of the host once more.  Where that
    file is an entry of the temporary directory the failure stays with
    the host: the execution returns exit code 1, the buffer of the host
    ends with [Connection failed on], the host, the exception text and a
    line feed, and the buffer of every host is what the session of that
    host alone gives, whatever happens at the other hosts and whatever
    the interleaving; with the hosts [A] and [B], [A] unreachable and [B]
    successful, the report has exactly two entries.  Where the file
    cannot be opened the handler itself raises: the execution returns no
    exit code and the host has no buffer.  That is the case of the mass
    run on the pattern [rack/web1] with no alias matching and the host
    refusing the connection: the run attempts the connection and prints
    nothing. *)
Theorem connection_failure_stays_with_host :
  (main (args_of true "rack/web1" ["uptime"]) None refusing_env [] elements
     = ([Connect "rack/web1" ""], Return tt) ∧
   connection_fails refusing_env (fleet_globals ["rack/web1"] ["uptime"])
     "rack/web1" "Connection refused") ∧
  (∀ env g host e x,
     connection_fails env g host e →
     open_target env (out_name host) = OpenRaises x →
     thread_result env g host = None ∧ host_buffer env g host = None) ∧
  (∀ env g host e entry,
     connection_fails env g host e →
     open_target env (out_name host) = Entry entry →
     thread_result env g host = Some 1 ∧
     host_buffer env g host =
       Some (header g host +:+
             "Connection failed on " +:+ host +:+ ": " +:+ e +:+ nl)) ∧
  (∀ env g sched h e entry,
     NoDup (HOSTS g) → separate_files env (HOSTS g) → h ∈ HOSTS g →
     connection_fails env g h e →
     open_target env (out_name h) = Entry entry →
     files (fleet_files env sched g) !! entry =
       Some (header g h +:+ "Connection failed on " +:+ h +:+ ": " +:+ e +:+ nl)) ∧
  (∀ env env' g sched sched' h entry,
     NoDup (HOSTS g) → h ∈ HOSTS g →
     separate_files env (HOSTS g) → separate_files env' (HOSTS g) →
     ssh_connect env' h = ssh_connect env h → fifo env' h = fifo env h →
     open_target env (out_name h) = Entry entry →
     open_target env' (out_name h) = Entry entry →
     files (fleet_files env' sched' g) !! entry
       = files (fleet_files env sched g) !! entry) ∧
  (∀ env g sched listdir A B a b e exec_command out err,
     HOSTS g = [A; B] → listdir_contract listdir →
     open_target env (out_name A) = Entry a →
     open_target env (out_name B) = Entry b →
     a ≠ b →
     ssh_connect env A (USERNAME g) = ConnectRaises e →
     ssh_connect env B (USERNAME g) = Connected exec_command →
     Py.truthy (wrap_remote_command (fifo env B) g) = true →
     exec_command (wrap_remote_command (fifo env B) g) (SUDO_MODE g)
       = RunOk out err 0 →
     ¬ contains_ci "error" (out +:+ err) →
     ¬ contains_ci "not found" (out +:+ err) →
     fleet_report env sched listdir g ≡ₚ
       [universal_newlines
          (header g A +:+ "Connection failed on " +:+ A +:+ ": " +:+ e +:+ nl);
        universal_newlines (header g B +:+ out +:+ err)] ∧
     thread_result env g A = Some 1 ∧
     thread_result env g B = Some 0).
Proof.
  split; [|split; [|split; [|split; [|split]]]].
  - split; [by vm_compute|by left].
  - intros env g host e x Hf Hx. split.
    + by rewrite (thread_result_fails env g host e Hf), Hx.
    + apply host_buffer_no_entry. unfold entry_of. by rewrite Hx.
  - intros env g host e entry Hf He. split.
    + by rewrite (thread_result_fails env g host e Hf), He.
    + by apply (host_buffer_fails env g host e entry).
  - intros env g sched h e entry Hnd Hsep Hh Hf He.
    rewrite (fleet_files_host env sched g h entry) by (done || by apply entry_of_Some).
    by apply (host_buffer_fails env g h e entry).
  - intros env env' g sched sched' h entry Hnd Hh Hsep Hsep' Hc Hf He He'.
    rewrite !(fleet_files_host _ _ g h entry) by (done || by apply entry_of_Some).
    apply host_buffer_ext; [done..|]. by rewrite He, He'.
  - intros env g sched listdir A B a b e exec out err HH Hl Ha Hb Nab HA HB Ht He
      Nerr Nnf.
    assert (A ≠ B) as NAB by (intros ->; congruence).
    assert (NoDup (HOSTS g)) as Hnd.
    { rewrite HH. apply NoDup_cons. split; [by intros ->%list_elem_of_singleton|].
      apply NoDup_singleton. }
    assert (separate_files env (HOSTS g)) as Hsep.
    { rewrite HH. intros h1 h2 entry H1 H2 E1%entry_of_Some E2%entry_of_Some.
      apply elem_of_cons in H1 as [->|H1]; [|apply list_elem_of_singleton in H1 as ->];
        (apply elem_of_cons in H2 as [->|H2];
           [|apply list_elem_of_singleton in H2 as ->]);
        congruence. }
    split; [|split].
    + rewrite (fleet_report_perm env sched listdir g Hnd Hsep Hl), HH. simpl.
      rewrite (host_buffer_fails env g A e a) by (done || by left).
      by rewrite (host_buffer_ran env g B b exec out err 0).
    + rewrite (thread_result_fails env g A e) by by left. by rewrite Ha.
    + rewrite (thread_result_ran env g B b exec out err 0) by done.
      f_equal. by apply exit_code_of_quiet.
Qed.

Lemma connection_failure_stays_with_host_witness :
  fleet_report example_env [1; 0; 1]%nat reversed_listing
    (fleet_globals ["web1.example.com"; "web2.example.com"] ["uptime"])
  ≡ₚ [universal_newlines ("Connection failed on web1.example.com: timed out" +:+ nl);
      universal_newlines ("done: uptime" +:+ nl)].
Proof.
  destruct connection_failure_stays_with_host as (_ & _ & _ & _ & _ & H).
  destruct (H example_env
              (fleet_globals ["web1.example.com"; "web2.example.com"] ["uptime"])
              [1; 0; 1]%nat reversed_listing
              "web1.example.com" "web2.example.com"
              "web1.example.com.out" "web2.example.com.out" "timed out"
              (λ cmd _, RunOk ("done: " +:+ cmd +:+ nl) "" 0)
              ("done: uptime" +:+ nl) "") as (Hr & _ & _);
    try reflexivity.
  - apply reversed_listing_contract.
  - discriminate.
  - rewrite <- contains_lower. by vm_compute.
  - rewrite <- contains_lower. by vm_compute.
  - exact Hr.
Defined.

(** ** The parser never misses the value of a [Hostname] line *)

Lemma last_char_cons (c : ascii) (t : string) :
  t ≠ "" → last_char (String c t) = last_char t.
Proof. by destruct t. Qed.

Lemma last_char_app (a r : string) : r ≠ "" → last_char (a +:+ r) = last_char r.
Proof.
  intros N. induction a as [|c a IH]; [done|].
  rewrite app_cons_s, last_char_cons; [done|].
  destruct a; [by rewrite app_nil_l_s | by rewrite app_cons_s].
Qed.

Lemma last_char_rstrip (s : string) (c : ascii) :
  last_char (Py.rstrip s) = Some c → Py.isspace c = false.
Proof.
  induction s as [|d s IH]; [done|]. simpl.
  destruct (Py.rstrip s) as [|e u] eqn:E.
  - destruct (Py.isspace d) eqn:Hd; [done|]. simpl. by intros [= <-].
  - rewrite last_char_cons by done. apply IH.
Qed.

Lemma split_go_nonempty (cur r : string) (c : ascii) :
  last_char r = Some c → Py.isspace c = false → Py.split_go cur r ≠ [].
Proof.
  revert cur. induction r as [|d t IH]; intros cur Hl Hc; [done|].
  destruct t as [|e t].
  - injection Hl as ->. simpl. rewrite Hc. simpl.
    destruct cur; [by rewrite app_nil_l_s | by rewrite app_cons_s].
  - rewrite last_char_cons in Hl by done.
    change (Py.split_go cur (String d (String e t)))
      with (if Py.isspace d then Py.flush cur ++ Py.split_go "" (String e t)
            else Py.split_go (cur +:+ String d "") (String e t)).
    destruct (Py.isspace d).
    + intros [_ H]%app_eq_nil. by apply (IH "").
    + by apply IH.
Qed.

(** [line.split()[1]] exists on every stripped line that starts with
    ["Hostname "]: the assignment of [parse_line] raises no [IndexError]. *)
Lemma hostname_line_has_value (line : string) :
  Py.startswith "Hostname " (Py.strip line) = true →
  ∃ value rest, Py.split (Py.strip line) = "Hostname" :: value :: rest.
Proof.
  unfold Py.startswith. intros [r Hr]%prefix_spec.
  assert (∃ c, last_char r = Some c ∧ Py.isspace c = false) as (c & Hl & Hc).
  { destruct r as [|x r].
    - pose proof (last_char_rstrip (Py.lstrip line) " ") as H.
      unfold Py.strip in Hr. rewrite Hr in H. by specialize (H eq_refl).
    - destruct (last_char (String x r)) as [c|] eqn:Hl.
      + exists c. split; [done|]. apply (last_char_rstrip (Py.lstrip line)).
        fold (Py.strip line). rewrite Hr. by rewrite last_char_app.
      + exfalso. clear Hr. revert x Hl. induction r as [|y r IH]; intros x Hl; [done|].
        rewrite last_char_cons in Hl by done. by apply (IH y). }
  rewrite Hr. unfold Py.split.
  change (Py.split_go "" ("Hostname " +:+ r)) with ("Hostname" :: Py.split_go "" r).
  pose proof (split_go_nonempty "" r c Hl Hc) as N.
  destruct (Py.split_go "" r) as [|value rest]; [done|]. by exists value, rest.
Qed.

(** The user name of a pattern [user@host]. *)
Lemma split_pattern_plain (pattern : string) :
  Py.contains "@" pattern = false → split_pattern pattern = ("", pattern).
Proof. unfold split_pattern. by intros ->. Qed.

Lemma split1_at (user host : string) :
  Py.contains_char "@" user = false →
  Py.split1 "@" (user +:+ "@" +:+ host) = [user; host].
Proof.
  induction user as [|c user IH]; intros H; [done|].
  simpl in H. apply orb_false_elim in H as [Hc Hu].
  apply bool_decide_eq_false in Hc.
  rewrite app_cons_s. simpl. rewrite bool_decide_eq_false_2 by congruence.
  by rewrite IH.
Qed.

Lemma split_pattern_at (user host : string) :
  Py.contains_char "@" user = false →
  split_pattern (user +:+ "@" +:+ host) = (user, host).
Proof.
  intros H. unfold split_pattern.
  assert (Py.contains "@" (user +:+ "@" +:+ host) = true) as ->.
  { apply contains_spec. by exists user, host. }
  by rewrite split1_at.
Qed.

(** The order of the enumeration is not the order of the strings: as a
    string, [a-b.c] comes before [a.b]. *)
Example segments_not_strings :
  sorted_hosts ({["a-b.c"]} ∪ {["a.b"]}) = ["a.b"; "a-b.c"] ∧
  Py.str_lt "a-b.c" "a.b" = true.
Proof. by vm_compute. Qed.

(** * Further properties of the code *)

(** ** Process substitution *)

Lemma contains_app_l (a b s : string) :
  Py.contains (a +:+ b) s = true → Py.contains a s = true.
Proof.
  rewrite !contains_spec. intros (pre & post & ->).
  exists pre, (b +:+ post). by rewrite app_assoc_s.
Qed.

Lemma contains_prefix (old s : string) :
  Py.contains old s = false → String.prefix old s = false.
Proof.
  destruct s; [rewrite contains_nil | rewrite contains_cons];
    by intros [? _]%orb_false_elim.
Qed.

Lemma replace_go_absent (old new s : string) :
  Py.contains old s = false → Py.replace_go old new 0 s = s.
Proof.
  induction s as [|c s IH]; intros H; [done|].
  pose proof (contains_prefix _ _ H) as Hp.
  rewrite contains_cons in H. apply orb_false_elim in H as [_ H].
  change (Py.replace_go old new 0 (String c s))
    with (if String.prefix old (String c s)
          then new +:+ Py.replace_go old new (String.length old - 1) s
          else String c (Py.replace_go old new 0 s)).
  by rewrite Hp, IH.
Qed.

Lemma findall_go_groups (k : nat) (s m : string) :
  m ∈ findall_go k s → ∃ body, m = "(" +:+ body +:+ ")".
Proof.
  revert k. induction s as [|c s IH]; intros k; [by intros ?%elem_of_nil|].
  destruct k as [|k]; [|apply IH].
  rewrite findall_go_scan. destruct (match_here (String c s)) as [body|]; [|apply IH].
  intros [->|H]%elem_of_cons; [by exists body | by eapply IH].
Qed.

Lemma substitution_fold_absent (fifo : fifo_oracle) (ms : list string)
    (i : nat) (cmd : string) :
  (∀ m, m ∈ ms → Py.contains ("<(" +:+ m +:+ ")") cmd = false) →
  (foldl (λ '(i, cmd) m, (S i, Py.replace ("<(" +:+ m +:+ ")") (fifo i m) cmd))
         (i, cmd) ms).2 = cmd.
Proof.
  revert i. induction ms as [|m ms IH]; intros i H; [done|].
  simpl. unfold Py.replace at 2. rewrite replace_go_absent by (apply H; by left).
  apply IH. intros m' Hm'. apply H. by right.
Qed.

(** X1: a command in which the text [<((] does not occur comes back
    unchanged from the process substitution, whatever markers [<(...)] it
    holds: the text looked for has the parentheses of the group twice. *)
Theorem process_substitution_leaves_markers (fifo : fifo_oracle) (cmd : string) :
  Py.contains "<((" cmd = false →
  handle_process_substitution fifo cmd = cmd.
Proof.
  intros H. unfold handle_process_substitution.
  apply substitution_fold_absent. intros m (body & ->)%findall_go_groups.
  apply not_true_iff_false. intros E.
  change ("<(" +:+ ("(" +:+ body +:+ ")") +:+ ")")
    with ("<((" +:+ (body +:+ ")") +:+ ")") in E.
  apply contains_app_l in E. congruence.
Qed.

Lemma process_substitution_leaves_markers_witness :
  handle_process_substitution (λ _ _, "/tmp/xssh_fifo") "diff <(ls /a) <(ls /b)"
  = "diff <(ls /a) <(ls /b)".
Proof.
  apply (process_substitution_leaves_markers _ "diff <(ls /a) <(ls /b)").
  by vm_compute.
Defined.

(** ** The remote command and the execution on one host *)

(** X2: with privilege escalation, every command that is not empty gives
    a remote command that starts with [sudo ]; such a remote command is
    never taken for a missing command. *)
Theorem sudo_always_prefixed (fifo : fifo_oracle) (g : globals) :
  SUDO_MODE g = true →
  COMMAND g ≠ [] →
  (∃ rest, wrap_remote_command fifo g = "sudo " +:+ rest) ∧
  Py.truthy (wrap_remote_command fifo g) = true.
Proof.
  intros Hs Hc.
  assert (∃ rest, wrap_remote_command fifo g = "sudo " +:+ rest) as [rest E].
  { destruct (COMMAND g) as [|c [|c2 l]] eqn:Ec; [done| |].
    - rewrite (wrap_remote_command_token fifo g c Ec). unfold sudo_prefix.
      rewrite Hs. by eexists.
    - rewrite (wrap_remote_command_tokens fifo g c c2 l Ec). unfold sudo_prefix.
      rewrite Hs. by eexists. }
  split; [by exists rest|]. by rewrite E.
Qed.

Lemma sudo_always_prefixed_witness :
  wrap_remote_command (λ _ _, "/tmp/xssh_fifo")
    (assign_globals {| arg_debug := false; arg_verbose := false; arg_x11 := false;
                       arg_port := ""; arg_local_forward := "";
                       arg_dynamic_forward := ""; arg_log_file := "";
                       arg_mass := false; arg_sudo := true;
                       arg_pattern := "db1"; arg_command := ["cat"; "/root/file"] |})
  = "sudo sh -c 'cat' '/root/file'".
Proof.
  destruct (sudo_always_prefixed (λ _ _, "/tmp/xssh_fifo")
    (assign_globals {| arg_debug := false; arg_verbose := false; arg_x11 := false;
                       arg_port := ""; arg_local_forward := "";
                       arg_dynamic_forward := ""; arg_log_file := "";
                       arg_mass := false; arg_sudo := true;
                       arg_pattern := "db1"; arg_command := ["cat"; "/root/file"] |})
    eq_refl) as [[rest E] _]; [done|].
  by vm_compute.
Defined.




(** X4: in a fleet run the thread of a host makes one connection
    attempt, to its host with the user name of the pattern, unless it
    dies before it: in verbose mode, when the file for the header cannot
    be opened.  It sends at most one command: the wrapped command, with a
    pseudo-terminal exactly in sudo mode. *)
Theorem execute_ssh_one_session (env : environment) (g : globals) (host : string) :
  let t := thread_of env g host ≫= emitted in
  connections t =
    (if VERBOSE_MODE g && open_raises env host then [] else [(host, USERNAME g)]) ∧
  (commands t = [] ∨
   commands t = [(host, wrap_remote_command (fifo env host) g, SUDO_MODE g)]).
Proof.
  unfold thread_of, execute_ssh, open_raises.
  destruct (open_target env (out_name host)) as [x| |entry];
    (destruct (ssh_connect env host (USERNAME g)) as [e|exec];
      [|destruct (Py.truthy (wrap_remote_command _ _));
        [destruct (exec _ _) as [e|out err st]|]]);
    destruct (VERBOSE_MODE g); simpl; auto.
Qed.


(** X6: the thread of a host leaves no output file in the temporary
    directory exactly when the file it is handed is no entry of the
    directory ([open] raises, or reaches a file elsewhere), or when
    verbose mode is off, the host accepted the connection and there was
    no command to send; in every other case the file exists. *)
Theorem host_without_buffer_iff (env : environment) (g : globals) (host : string) :
  host_buffer env g host = None ↔
  (∀ entry, open_target env (out_name host) ≠ Entry entry) ∨
  (VERBOSE_MODE g = false ∧
   ∃ exec_command,
     ssh_connect env host (USERNAME g) = Connected exec_command ∧
     Py.truthy (wrap_remote_command (fifo env host) g) = false).
Proof.
  destruct (open_target env (out_name host)) as [x| |entry] eqn:Ho.
  { rewrite host_buffer_no_entry by (unfold entry_of; by rewrite Ho).
    split; [|done]. intros _. by left. }
  { rewrite host_buffer_no_entry by (unfold entry_of; by rewrite Ho).
    split; [|done]. intros _. by left. }
  assert (¬ ∀ entry' : string, Entry entry ≠ Entry entry') as Nl
    by (intros H; by apply (H entry)).
  destruct (ssh_connect env host (USERNAME g)) as [e|exec] eqn:Hc.
  { rewrite (host_buffer_fails env g host e entry) by (done || by left).
    split; [done | by intros [?|(_ & ? & ? & _)]]. }
  destruct (Py.truthy (wrap_remote_command (fifo env host) g)) eqn:Ht.
  - destruct (exec (wrap_remote_command (fifo env host) g) (SUDO_MODE g))
      as [e|out err st] eqn:He.
    + rewrite (host_buffer_fails env g host e entry) by (done || right; by exists exec).
      split; [done | by intros [?|(_ & ? & _ & ?)]].
    + rewrite (host_buffer_ran env g host entry exec out err st) by done.
      split; [done | by intros [?|(_ & ? & _ & ?)]].
  - rewrite (host_buffer_entry env g host entry) by by apply entry_of_Some.
    unfold thread_of, execute_ssh. rewrite Ho, Hc, Ht.
    destruct (VERBOSE_MODE g); simpl.
    + unfold written. simpl. rewrite bool_decide_eq_true_2 by done.
      split; [done | by intros [?|[? _]]].
    + split; [|done]. intros _. right. split; [done|]. by exists exec.
Qed.

(** ** The end and the connections of a fleet run *)

Lemma perform_trace (w : world) (a : action) :
  trace (perform w a) = trace w ++ emitted a.
Proof. destruct a as [e|[|n] text|[|n] text]; simpl; by rewrite ?app_nil_r. Qed.

Lemma run_trace (w : world) (acts : list action) :
  trace (foldl perform w acts) = trace w ++ (acts ≫= emitted).
Proof.
  revert w. induction acts as [|a acts IH]; intros w; simpl.
  - by rewrite app_nil_r.
  - by rewrite IH, perform_trace, <- app_assoc.
Qed.

Lemma step_pending (ts : list (list action)) (i : nat) (a : action)
    (rest : list action) :
  ts !! i = Some (a :: rest) →
  concat ts ≡ₚ a :: concat (<[i := rest]> ts).
Proof.
  intros Hi. pose proof (lookup_lt_Some _ _ _ Hi) as Hlt.
  rewrite insert_take_drop by done.
  rewrite <- (take_drop_middle ts i (a :: rest) Hi) at 1.
  rewrite !concat_app, !concat_cons. simpl.
  symmetry. apply Permutation_middle.
Qed.

(** Under every schedule the run performs the actions of the threads,
    each once, in some order. *)
Lemma run_threads_order (sched : list nat) (w : world) (ts : list (list action)) :
  ∃ performed,
    (run_threads sched w ts).1 = foldl perform w performed ∧
    performed ++ concat (run_threads sched w ts).2 ≡ₚ concat ts.
Proof.
  revert w ts. induction sched as [|i sched IH]; intros w ts; simpl.
  { by exists []. }
  destruct (ts !! i) as [[|a rest]|] eqn:Hi; [apply IH| |apply IH].
  destruct (IH (perform w a) (<[i := rest]> ts)) as (performed & Hw & Hp).
  exists (a :: performed). split; [done|].
  simpl. by rewrite Hp, (step_pending ts i a rest Hi).
Qed.

Lemma fleet_files_order (env : environment) (sched : list nat) (g : globals) :
  ∃ order,
    order ≡ₚ concat (thread_of env g <$> HOSTS g) ∧
    fleet_files env sched g = foldl perform empty_world order.
Proof.
  unfold fleet_files.
  destruct (run_threads_order sched empty_world (thread_of env g <$> HOSTS g))
    as (performed & Hw & Hp).
  destruct (run_threads sched empty_world _) as [w ts]. simpl in *.
  exists (performed ++ concat ts). split; [done|].
  by rewrite join_all_concat, foldl_app, Hw.
Qed.

Lemma fleet_trace (env : environment) (sched : list nat) (g : globals) :
  trace (fleet_files env sched g) ≡ₚ concat (thread_of env g <$> HOSTS g) ≫= emitted.
Proof.
  destruct (fleet_files_order env sched g) as (order & Hp & ->).
  rewrite run_trace. simpl. by rewrite Hp.
Qed.

Lemma perform_empty (w : world) (a : action) :
  files (perform w a) = ∅ ↔ files w = ∅ ∧ in_directory a = false.
Proof.
  destruct a as [e|[|n] text|[|n] text]; simpl;
    (split; [intros H|intros [H H']]); try done;
    by apply insert_non_empty in H.
Qed.

Lemma run_empty (w : world) (acts : list action) :
  files (foldl perform w acts) = ∅ ↔
  files w = ∅ ∧ Forall (λ a, in_directory a = false) acts.
Proof.
  revert w. induction acts as [|a acts IH]; intros w; simpl.
  - split; [by intros ->|by intros [-> _]].
  - rewrite IH, perform_empty, Forall_cons. tauto.
Qed.

Lemma in_directory_touches (a : action) :
  in_directory a = true → ∃ name, touches name a.
Proof. destruct a as [e|[|n] text|[|n] text]; simpl; try done; by exists n. Qed.

Lemma written_None (entry : string) (acts : list action) (old : option string) :
  Forall (λ a, in_directory a = true → touches entry a) acts →
  written entry acts old = None ↔
  old = None ∧ Forall (λ a, in_directory a = false) acts.
Proof.
  intros F. revert old. induction F as [|a acts Ha F IH]; intros old.
  - simpl. split; [done|by intros [-> _]].
  - unfold written in *. simpl. rewrite IH, Forall_cons.
    destruct a as [e|[|n] text|[|n] text]; simpl in *; try tauto;
      rewrite (bool_decide_eq_true_2 _ (Ha eq_refl));
      (split; [by intros [? ?] | by intros (? & ? & ?)]).
Qed.

(** A host has no buffer exactly when its thread writes to no file of
    the directory. *)
Lemma host_buffer_None (env : environment) (g : globals) (h : string) :
  host_buffer env g h = None ↔
  Forall (λ a, in_directory a = false) (thread_of env g h).
Proof.
  pose proof (thread_of_confined env g h) as C.
  destruct (entry_of env h) as [entry|] eqn:He.
  - rewrite (host_buffer_entry env g h entry He), written_None; [tauto|].
    eapply Forall_impl; [exact C|]. simpl.
    intros a Ha [name T]%in_directory_touches.
    pose proof (Ha name T). by simplify_eq.
  - rewrite (host_buffer_no_entry env g h He). split; [intros _|done].
    eapply Forall_impl; [exact C|]. simpl. intros a Ha.
    destruct (in_directory a) eqn:Hd; [|done].
    apply in_directory_touches in Hd as [name T]. by pose proof (Ha name T).
Qed.

Lemma fleet_files_empty_iff (env : environment) (sched : list nat) (g : globals) :
  files (fleet_files env sched g) = ∅ ↔
  ∀ h, h ∈ HOSTS g → host_buffer env g h = None.
Proof.
  destruct (fleet_files_order env sched g) as (order & Hp & ->).
  rewrite run_empty, Hp, Forall_concat, Forall_fmap, Forall_forall. simpl.
  split.
  - intros [_ F] h Hh. by apply host_buffer_None, F.
  - intros H. split; [done|]. intros h Hh. by apply host_buffer_None, H.
Qed.

(** X7: whatever the interleaving, a fleet run ends with the [OSError]
    of [os.rmdir] exactly when some host left an output file in the
    temporary directory, since the files are never removed; it returns
    only when no host left a file there. *)
Theorem parallel_execute_end (env : environment) (sched : list nat)
    (listdir : listdir_oracle) (g : globals) :
  MASS_MODE g = true →
  ((parallel_execute env sched listdir g).2 = Raise "OSError" ↔
     ∃ h, h ∈ HOSTS g ∧ is_Some (host_buffer env g h)) ∧
  ((parallel_execute env sched listdir g).2 = Return () ↔
     ∀ h, h ∈ HOSTS g → host_buffer env g h = None).
Proof.
  intros Hm. unfold parallel_execute. rewrite Hm.
  unfold mbind, prog_bind, emit. simpl.
  pose proof (fleet_files_empty_iff env sched g) as He.
  case_bool_decide as Hf; simpl.
  - split; split.
    + done.
    + intros (h & Hh & Hs). rewrite (proj1 He Hf h Hh) in Hs. by destruct Hs.
    + intros _. by apply He.
    + done.
  - split; split.
    + intros _.
      destruct (decide (Exists (λ h, is_Some (host_buffer env g h)) (HOSTS g)))
        as [E|N].
      * apply Exists_exists in E as (h & Hh & Hs). by exists h.
      * exfalso. apply Hf, He. intros h Hh.
        destruct (host_buffer env g h) as [b|] eqn:Hb; [|done].
        destruct N. apply Exists_exists. exists h. by rewrite Hb.
    + done.
    + done.
    + intros Hn. by apply He in Hn.
Qed.

Lemma parallel_execute_end_witness :
  (parallel_execute example_env [] elements
     (fleet_globals ["web1.example.com"; "web2.example.com"] ["uptime"])).2
  = Raise "OSError".
Proof.
  apply (parallel_execute_end example_env [] elements
           (fleet_globals ["web1.example.com"; "web2.example.com"] ["uptime"])).
  - reflexivity.
  - exists "web1.example.com". split; [by left|]. vm_compute. by eexists.
Defined.

Lemma thread_connections (env : environment) (g : globals) (host : string) :
  connections (thread_of env g host ≫= emitted) =
    if VERBOSE_MODE g && open_raises env host then [] else [(host, USERNAME g)].
Proof.
  unfold thread_of, execute_ssh, open_raises.
  destruct (open_target env (out_name host)) as [x| |entry];
    (destruct (ssh_connect env host (USERNAME g)) as [e|exec];
      [|destruct (Py.truthy (wrap_remote_command _ _));
        [destruct (exec _ _) as [e|out err st]|]]);
    by destruct (VERBOSE_MODE g).
Qed.

(** X9: whatever the interleaving of the threads, a fleet run makes one
    connection attempt, with the user name of the pattern, for each host
    of the list whose thread does not die before: in verbose mode the
    hosts whose file cannot be opened are never connected to.  It makes
    no other connection. *)
Theorem fleet_connects_each_host_once (env : environment) (sched : list nat)
    (g : globals) :
  connections (trace (fleet_files env sched g)) ≡ₚ
  (λ h, (h, USERNAME g)) <$>
    filter (λ h, VERBOSE_MODE g && open_raises env h = false) (HOSTS g).
Proof.
  unfold connections. rewrite fleet_trace.
  induction (HOSTS g) as [|h l IH]; [done|].
  rewrite fmap_cons, concat_cons, bind_app, omap_app, IH.
  fold (connections (thread_of env g h ≫= emitted)).
  rewrite thread_connections, filter_cons.
  destruct (VERBOSE_MODE g && open_raises env h); by case_decide.
Qed.

(** ** Validation of the input *)

Lemma bind_snd {A B} (m : prog A) (f : A → prog B) (a : A) :
  m.2 = Return a → (m ≫= f).2 = (f a).2 ∧ (m ≫= f).1 = m.1 ++ (f a).1.
Proof. intros H. unfold mbind, prog_bind. by rewrite H. Qed.

Lemma validate_command_ok (g : globals) :
  (∀ cmd, cmd ∈ forbidden_commands →
          Py.contains cmd (Py.join " " (COMMAND g)) = false) →
  validate_command g = ([], Return ()).
Proof.
  intros H. unfold validate_command, forbidden_commands. simpl.
  rewrite !H; [done|unfold forbidden_commands..].
  - do 2 right. by left.
  - right. by left.
  - by left.
Qed.

Lemma validate_command_cases (g : globals) :
  validate_command g = ([], Return ()) ∨ validate_command g = ([], Exit 1).
Proof.
  unfold validate_command. simpl.
  repeat (destruct (Py.contains _ _); [by right|]). by left.
Qed.

Lemma validate_input_mass (args : arguments) (c : string) (l : list string) :
  arg_mass args = true → arg_command args = c :: l →
  validate_input args = (validate_command (assign_globals args);; mret (assign_globals args)).
Proof. intros Hm Hc. unfold validate_input. simpl. by rewrite Hm, Hc. Qed.

(** X16: the input validation has two outcomes, acceptance with the
    globals assigned from the arguments or [sys.exit(1)], both without
    any event; it accepts exactly when mass mode is off, or the command
    is not empty and its joined text contains none of the restricted
    words.  Outside mass mode the restricted words are not looked for. *)
Theorem validate_input_accepts_iff (args : arguments) :
  (validate_input args = ([], Return (assign_globals args)) ∨
   validate_input args = ([], Exit 1)) ∧
  (validate_input args = ([], Return (assign_globals args)) ↔
   arg_mass args = false ∨
   (arg_command args ≠ [] ∧
    ∀ cmd, cmd ∈ forbidden_commands →
           Py.contains cmd (Py.join " " (arg_command args)) = false)).
Proof.
  destruct (arg_mass args) eqn:Hm.
  2:{ rewrite (validate_input_single args Hm). split; [by left|]. split; auto. }
  destruct (arg_command args) as [|c l] eqn:Hc.
  { assert (validate_input args = ([], Exit 1)) as ->
      by (unfold validate_input; simpl; by rewrite Hm, Hc).
    split; [by right|]. split; [done|]. by intros [|[? _]]. }
  rewrite (validate_input_mass args c l Hm Hc).
  destruct (validate_command_cases (assign_globals args)) as [E|E]; rewrite E.
  - split; [by left|]. split; [intros _; right; split; [done|] | done].
    intros cmd Hin. destruct (Py.contains cmd _) eqn:Hk; [|done].
    rewrite <- Hc in Hk.
    pose proof (validate_command_forbidden (assign_globals args) cmd Hin Hk).
    congruence.
  - split; [by right|]. split; [done|]. intros [|[_ H]]; [done|].
    rewrite validate_command_ok in E; [done|]. simpl. by rewrite Hc.
Qed.

Lemma join_elem (sep t : string) (l : list string) :
  t ∈ l → ∃ pre post, Py.join sep l = pre +:+ t +:+ post.
Proof.
  induction l as [|x l IH]; [by intros ?%elem_of_nil|].
  intros [->|H]%elem_of_cons.
  - destruct l as [|y l]; [exists "", ""; by rewrite app_empty_r|].
    exists "", (sep +:+ Py.join sep (y :: l)). by rewrite join_cons.
  - destruct (IH H) as (pre & post & E).
    destruct l as [|y l]; [by apply elem_of_nil in H|].
    exists (x +:+ sep +:+ pre), post.
    rewrite join_cons by done. by rewrite E, !app_assoc_s.
Qed.

(** X15: in mass mode the run is rejected as soon as one token of the
    command contains a restricted word, also inside a longer word or a
    path. *)
Theorem token_with_restricted_word_rejected (args : arguments) (token cmd : string) :
  arg_mass args = true →
  token ∈ arg_command args →
  cmd ∈ forbidden_commands →
  Py.contains cmd token = true →
  validate_input args = ([], Exit 1).
Proof.
  intros Hm Ht Hc Hk. apply (validate_input_forbidden args cmd Hm Hc).
  apply contains_spec in Hk as (p1 & p2 & ->).
  destruct (join_elem " " _ _ Ht) as (pre & post & ->).
  apply contains_spec. exists (pre +:+ p1), (p2 +:+ post).
  by rewrite !app_assoc_s.
Qed.

Lemma token_with_restricted_word_rejected_witness :
  validate_input (args_of true "web" ["sudo"; "/sbin/reboot"]) = ([], Exit 1).
Proof.
  apply (token_with_restricted_word_rejected
           (args_of true "web" ["sudo"; "/sbin/reboot"]) "/sbin/reboot" "reboot").
  - reflexivity.
  - right. by left.
  - unfold forbidden_commands. do 2 right. by left.
  - by vm_compute.
Defined.

(** ** Runs of the main program *)





Lemma extract_hosts_returns (config : option (list string)) (g : globals) :
  MASS_MODE g = true ∨ (length (candidates config (PATTERN g)) ≤ 1)%nat →
  extract_hosts config g =
    (config_events config,
     Return (with_hosts g (split_pattern (PATTERN g)).1
               (match candidates config (PATTERN g) with
                | [] => [(split_pattern (PATTERN g)).2]
                | _ => candidates config (PATTERN g)
                end))).
Proof.
  intros H. rewrite extract_hosts_unfold. simpl.
  destruct H as [->|H]; [by rewrite andb_false_r|].
  apply Nat.ltb_ge in H. by rewrite H.
Qed.





(** X10: without mass mode a resolution that returns has found exactly
    one host; with or without it, the hosts are pairwise distinct. *)
Theorem resolution_hosts (config : option (list string)) (g g' : globals)
    (t : list event) :
  extract_hosts config g = (t, Return g') →
  NoDup (HOSTS g') ∧ (MASS_MODE g = false → ∃ h, HOSTS g' = [h]).
Proof.
  intros H. split; [by eapply extract_hosts_NoDup|].
  intros Hm. rewrite extract_hosts_unfold in H. simpl in H. rewrite Hm in H.
  destruct (1 <? length (candidates config (PATTERN g)))%nat eqn:Hl; [done|].
  simpl in H. injection H as _ <-. simpl.
  apply Nat.ltb_ge in Hl.
  destruct (candidates config (PATTERN g)) as [|h [|h2 l]]; [by eexists..|].
  simpl in Hl. lia.
Qed.

Lemma resolution_hosts_witness :
  NoDup ["web1.example.com"; "web2.example.com"].
Proof.
  apply (resolution_hosts (Some example_config)
           (assign_globals (args_of true "web" ["uptime"]))
           (with_hosts (assign_globals (args_of true "web" ["uptime"])) ""
              ["web1.example.com"; "web2.example.com"])
           [ReadConfig]).
  by vm_compute.
Defined.

Lemma tokens_command_truthy (fifo : fifo_oracle) (g : globals)
    (c1 c2 : string) (rest : list string) :
  COMMAND g = c1 :: c2 :: rest → Py.truthy (wrap_remote_command fifo g) = true.
Proof.
  intros H. rewrite (wrap_remote_command_tokens fifo g c1 c2 rest H).
  unfold sudo_prefix. by destruct (SUDO_MODE g).
Qed.

Lemma host_buffer_some (env : environment) (g : globals) (h entry : string) :
  Py.truthy (wrap_remote_command (fifo env h) g) = true →
  open_target env (out_name h) = Entry entry →
  is_Some (host_buffer env g h).
Proof.
  intros Ht Ho.
  destruct (ssh_connect env h (USERNAME g)) as [e|exec] eqn:Hc.
  - rewrite (host_buffer_fails env g h e entry) by (done || by left). by eexists.
  - destruct (exec (wrap_remote_command (fifo env h) g) (SUDO_MODE g))
      as [e|out err st] eqn:He.
    + rewrite (host_buffer_fails env g h e entry) by (done || right; by exists exec).
      by eexists.
    + rewrite (host_buffer_ran env g h entry exec out err st) by done. by eexists.
Qed.

(** X8: a mass run with a command of two or more tokens that passes the
    validation, whose log file is absent or can be opened, and in which
    the output file of some resolved host is an entry of the temporary
    directory, ends with the uncaught [OSError] of [os.rmdir], after the
    report: that host leaves its file, and the files are never removed
    from the directory. *)
Theorem mass_run_ends_with_oserror (args : arguments)
    (config : option (list string)) (env : environment) (sched : list nat)
    (listdir : listdir_oracle) (c1 c2 : string) (rest : list string)
    (h entry : string) :
  arg_mass args = true →
  arg_pattern args ∉ help_patterns →
  arg_command args = c1 :: c2 :: rest →
  (∀ cmd, cmd ∈ forbidden_commands →
          Py.contains cmd (Py.join " " (arg_command args)) = false) →
  log_ready env (assign_globals args) →
  h ∈ resolved_hosts config (arg_pattern args) →
  open_target env (out_name h) = Entry entry →
  (main args config env sched listdir).2 = Raise "OSError".
Proof.
  intros Hm Hp Hc Hok Hlog Hh Ho.
  assert (validate_input args = ([], Return (assign_globals args))) as Hv.
  { rewrite (validate_input_mass args c1 (c2 :: rest) Hm Hc).
    by rewrite validate_command_ok. }
  rewrite (main_unfold_ready _ _ _ _ _ _ Hp Hv Hlog).
  pose proof (extract_hosts_returns config (assign_globals args) (or_introl Hm)) as He.
  set (g1 := with_hosts (assign_globals args) _ _) in He.
  destruct (bind_snd (extract_hosts config (assign_globals args))
              (λ g, if MASS_MODE g then parallel_execute env sched listdir g
                    else execute_ssh_command env g) g1) as [E2 _];
    [by rewrite He|].
  rewrite E2. change (MASS_MODE g1) with (arg_mass args). rewrite Hm.
  unfold parallel_execute. change (MASS_MODE g1) with (arg_mass args). rewrite Hm.
  unfold mbind, prog_bind, emit. simpl.
  rewrite bool_decide_eq_false_2; [done|].
  rewrite (fleet_files_empty_iff env sched g1). intros Hn.
  specialize (Hn h Hh).
  destruct (host_buffer_some env g1 h entry
              (tokens_command_truthy (fifo env h) g1 c1 c2 rest Hc) Ho) as [b Hb].
  congruence.
Qed.

Lemma mass_run_ends_with_oserror_witness :
  (main (args_of true "web" ["ls"; "-l"]) (Some example_config)
        example_env [0; 1; 1; 0]%nat reversed_listing).2 = Raise "OSError".
Proof.
  apply (mass_run_ends_with_oserror (args_of true "web" ["ls"; "-l"])
           (Some example_config) example_env [0; 1; 1; 0]%nat reversed_listing
           "ls" "-l" [] "web1.example.com" "web1.example.com.out").
  - reflexivity.
  - unfold help_patterns. not_among.
  - reflexivity.
  - intros cmd H. unfold forbidden_commands in H.
    repeat (apply elem_of_cons in H as [->|H]; [by vm_compute|]).
    by apply elem_of_nil in H.
  - by left.
  - apply (bool_decide_unpack _). by vm_compute.
  - by vm_compute.
Defined.

(** ** The SSH options *)

Lemma assign_globals_options (a b : arguments) :
  same_but_options a b →
  assign_globals a = with_options (assign_globals b) (SSH_OPTIONS (assign_globals a)).
Proof.
  intros (H1 & H2 & H3 & H4 & H5 & H6 & H7). unfold assign_globals, with_options.
  simpl. by rewrite H1, H2, H3, H4, H5, H6, H7.
Qed.

Lemma extract_hosts_options (config : option (list string)) (g : globals)
    (o : list string) :
  extract_hosts config (with_options g o) =
    ((extract_hosts config g).1,
     match (extract_hosts config g).2 with
     | Return g' => Return (with_options g' o)
     | Exit c => Exit c
     | Raise e => Raise e
     end).
Proof. rewrite !extract_hosts_unfold. simpl. by destruct (_ && _). Qed.

Lemma run_after_resolution_options (config : option (list string))
    (env : environment) (sched : list nat) (listdir : listdir_oracle)
    (g : globals) (o : list string) :
  (g' ← extract_hosts config (with_options g o);
   if MASS_MODE g' then parallel_execute env sched listdir g'
   else execute_ssh_command env g') =
  (g' ← extract_hosts config g;
   if MASS_MODE g' then parallel_execute env sched listdir g'
   else execute_ssh_command env g').
Proof.
  rewrite extract_hosts_options. unfold mbind, prog_bind. simpl.
  by destruct (extract_hosts config g) as [t [g'|c|e]].
Qed.

Lemma run_after_validation_options (config : option (list string))
    (env : environment) (sched : list nat) (listdir : listdir_oracle)
    (g : globals) (o : list string) :
  (setup_logging env (with_options g o);;
   g' ← extract_hosts config (with_options g o);
   if MASS_MODE g' then parallel_execute env sched listdir g'
   else execute_ssh_command env g') =
  (setup_logging env g;;
   g' ← extract_hosts config g;
   if MASS_MODE g' then parallel_execute env sched listdir g'
   else execute_ssh_command env g').
Proof.
  change (setup_logging env (with_options g o)) with (setup_logging env g).
  destruct (setup_logging_cases env g) as [Hl|(e & Ht & Ho)].
  - rewrite !(bind_return _ _ _ (setup_logging_ready env g Hl)).
    apply run_after_resolution_options.
  - by rewrite !(bind_raise _ _ _ _ (setup_logging_raises env g e Ht Ho)).
Qed.

(** X14: the options [-X], [-p], [-L] and [-D] are stored in
    [SSH_OPTIONS] and never read again: two runs whose arguments differ
    only in these options do the same, event for event. *)
Theorem ssh_options_never_used (a b : arguments)
    (config : option (list string)) (env : environment) (sched : list nat)
    (listdir : listdir_oracle) :
  same_but_options a b →
  main a config env sched listdir = main b config env sched listdir.
Proof.
  intros Hs. pose proof (assign_globals_options a b Hs) as Hg.
  destruct Hs as (_ & _ & _ & Hm & _ & Hp & Hc).
  unfold main. rewrite Hp. case_bool_decide; [done|].
  unfold validate_input.
  change (MASS_MODE (assign_globals a)) with (arg_mass a).
  change (MASS_MODE (assign_globals b)) with (arg_mass b).
  change (COMMAND (assign_globals a)) with (arg_command a).
  change (COMMAND (assign_globals b)) with (arg_command b).
  rewrite Hm, Hc. destruct (arg_mass b), (arg_command b) as [|c l]; [done| | |].
  - assert (validate_command (assign_globals a) = validate_command (assign_globals b))
      as -> by by rewrite Hg.
    destruct (validate_command_cases (assign_globals b)) as [E|E]; rewrite E; [|done].
    rewrite !(bind_return _ _ _ eq_refl), !(bind_return (mret _) _ _ eq_refl).
    rewrite Hg. apply run_after_validation_options.
  - rewrite !(bind_return (mret _) _ _ eq_refl).
    rewrite Hg. apply run_after_validation_options.
  - rewrite !(bind_return (mret _) _ _ eq_refl).
    rewrite Hg. apply run_after_validation_options.
Qed.

Lemma ssh_options_never_used_witness :
  main {| arg_debug := false; arg_verbose := false; arg_x11 := true;
          arg_port := "2222"; arg_local_forward := "8080:localhost:80";
          arg_dynamic_forward := ""; arg_log_file := ""; arg_mass := false;
          arg_sudo := false; arg_pattern := "db1"; arg_command := ["uptime"] |}
       (Some example_config) example_env [] elements
  = main (args_of false "db1" ["uptime"]) (Some example_config) example_env [] elements.
Proof.
  apply ssh_options_never_used. by repeat split.
Defined.

(** ** The registry and the enumeration *)

Lemma declare_aliases_spec (r : registry) (l : list string) :
  hosts_set (foldl declare_alias r l)
    = list_to_set (filter (λ h, ¬ is_wildcard h) l) ∪ hosts_set r ∧
  current_host (foldl declare_alias r l)
    = default (current_host r) (last (filter (λ h, ¬ is_wildcard h) l)) ∧
  hostnames (foldl declare_alias r l) = hostnames r.
Proof.
  revert r. induction l as [|h l IH]; intros r; simpl.
  - split; [by rewrite (left_id_L ∅ (∪)) | done].
  - destruct (IH (declare_alias r h)) as (Hs & Hc & Hn).
    rewrite Hs, Hc, Hn, filter_cons. clear IH Hs Hc Hn.
    destruct (decide (¬ is_wildcard h)) as [W|W].
    + rewrite declare_alias_plain by done. simpl. split; [|split; [|done]].
      * rewrite (assoc_L (∪)). f_equal. apply (comm_L (∪)).
      * rewrite last_cons. by destruct (last _).
    + rewrite declare_alias_wildcard; [done|]. by destruct (decide (is_wildcard h)).
Qed.

(** X20: on a [Host] line every alias without wildcard joins the set of
    aliases and the last of them becomes the current host, so that the
    [Hostname] lines that follow give their address to that alias only;
    the addresses recorded before are left as they are. *)
Theorem host_line_aliases (r : registry) (line : string) :
  Py.startswith "Host " (Py.strip line) = true →
  let aliases := filter (λ h, ¬ is_wildcard h) (tail (Py.split (Py.strip line))) in
  hosts_set (parse_line r line) = list_to_set aliases ∪ hosts_set r ∧
  current_host (parse_line r line) = default (current_host r) (last aliases) ∧
  hostnames (parse_line r line) = hostnames r.
Proof.
  intros H. unfold parse_line. rewrite H.
  apply prefix_spec in H as [post H]. rewrite H.
  change (negb (Py.truthy ("Host " +:+ post)) || Py.startswith "#" ("Host " +:+ post))
    with false.
  rewrite <- H. apply declare_aliases_spec.
Qed.

Lemma host_line_aliases_witness :
  current_host (parse_line empty_registry "Host web1 *.example.com web2 *") = "web2".
Proof.
  destruct (host_line_aliases empty_registry "Host web1 *.example.com web2 *")
    as (_ & -> & _); [by vm_compute|]. by vm_compute.
Defined.

Lemma parse_line_closed (r : registry) (line : string) :
  ((current_host r = "" ∨ current_host r ∈ hosts_set r) ∧
   ∀ a, is_Some (hostnames r !! a) → a ∈ hosts_set r ∧ a ≠ "") →
  (current_host (parse_line r line) = "" ∨
   current_host (parse_line r line) ∈ hosts_set (parse_line r line)) ∧
  ∀ a, is_Some (hostnames (parse_line r line) !! a) →
       a ∈ hosts_set (parse_line r line) ∧ a ≠ "".
Proof.
  intros [Hc Hn]. unfold parse_line.
  destruct (_ || _); [done|].
  destruct (Py.startswith "Host " _).
  { destruct (declare_aliases_spec r (tail (Py.split (Py.strip line))))
      as (-> & -> & ->).
    split.
    - destruct (last _) as [h|] eqn:El; simpl.
      + right. apply elem_of_union. left. apply elem_of_list_to_set.
        by apply last_Some_elem_of.
      + destruct Hc as [?|?]; [by left | right]. apply elem_of_union. by right.
    - intros a Ha. destruct (Hn a Ha). split; [|done]. apply elem_of_union. by right. }
  destruct (Py.startswith "Hostname " _); [|done].
  destruct (Py.truthy (current_host r)) eqn:Ht; [|done].
  destruct (Py.split _) as [|? [|value ?]]; [done..|]. simpl.
  split; [done|]. intros a. rewrite lookup_insert. case_decide; [|by apply Hn].
  subst a. intros _. destruct Hc as [E|E]; [by rewrite E in Ht|].
  split; [done|]. intros E'. by rewrite E' in Ht.
Qed.

(** X13: in the registry read from a file every alias that has an
    address is a member of the set of aliases and is not empty: a
    [Hostname] line that no [Host] line with a plain alias precedes is
    dropped. *)
Theorem addresses_belong_to_aliases (lines : list string) (a : string) :
  is_Some (hostnames (parse_config lines) !! a) →
  a ∈ hosts_set (parse_config lines) ∧ a ≠ "".
Proof.
  unfold parse_config.
  assert ((current_host empty_registry = "" ∨
           current_host empty_registry ∈ hosts_set empty_registry) ∧
          ∀ a, is_Some (hostnames empty_registry !! a) →
               a ∈ hosts_set empty_registry ∧ a ≠ "") as H.
  { split; [by left|]. intros b. simpl. rewrite lookup_empty. by intros [? ?]. }
  revert H. generalize empty_registry.
  induction lines as [|line lines IH]; intros r H; simpl.
  - by apply H.
  - by apply IH, parse_line_closed.
Qed.

Lemma addresses_belong_to_aliases_witness :
  "db1.example.com" ∈ hosts_set (parse_config example_config).
Proof.
  apply (addresses_belong_to_aliases example_config "db1.example.com").
  vm_compute. by eexists.
Defined.

Lemma contains_empty (s : string) : Py.contains "" s = true.
Proof. apply contains_spec. by exists "", s. Qed.

(** X12: an empty host pattern, as in [user@], matches every alias: the
    address of every alias of the file is among the hosts found. *)
Theorem empty_pattern_selects_all (lines : list string) (pattern a : string) :
  (split_pattern pattern).2 = "" →
  a ∈ hosts_set (parse_config lines) →
  address (hostnames (parse_config lines)) a ∈ candidates (Some lines) pattern.
Proof.
  intros Hp Ha. unfold candidates. rewrite Hp. apply matching_hosts_elem.
  exists a. repeat split; [done| |].
  - destruct (parse_config_free lines) as (_ & Hs & _). by apply Hs.
  - unfold matches. apply contains_empty.
Qed.

Lemma empty_pattern_selects_all_witness :
  "db1.example.com" ∈ candidates (Some example_config) "root@".
Proof.
  apply (empty_pattern_selects_all example_config "root@" "db1.example.com").
  - by vm_compute.
  - apply elem_of_elements. vm_compute. right. right. by left.
Defined.

(** X19: the sort by segment sequences gives the same list for every
    order in which the set of aliases is enumerated; that list holds the
    aliases of the set, each once, in ascending order. *)
Theorem sorted_hosts_any_enumeration (s : gset string) (l : list string) :
  l ≡ₚ elements s →
  merge_sort key_le l = sorted_hosts s ∧
  Sorted segments_le (sorted_hosts s) ∧
  NoDup (sorted_hosts s) ∧
  ∀ a, a ∈ sorted_hosts s ↔ a ∈ s.
Proof.
  intros H. split; [by apply merge_sort_perm_eq|]. split; [|split].
  - eapply Sorted_impl; [|apply (Sorted_merge_sort key_le)].
    intros x y. apply key_le_segments_le.
  - unfold sorted_hosts. rewrite merge_sort_Permutation. apply NoDup_elements.
  - intros a. unfold sorted_hosts. by rewrite merge_sort_Permutation, elem_of_elements.
Qed.

Lemma sorted_hosts_any_enumeration_witness :
  merge_sort key_le ["b.example.com"; "a.example.com"; "a-b.example.com"]
  = sorted_hosts ({["a-b.example.com"]} ∪ {["a.example.com"]} ∪ {["b.example.com"]}).
Proof.
  apply (sorted_hosts_any_enumeration
           ({["a-b.example.com"]} ∪ {["a.example.com"]} ∪ {["b.example.com"]})
           ["b.example.com"; "a.example.com"; "a-b.example.com"]).
  apply NoDup_Permutation.
  - apply (bool_decide_unpack _). by vm_compute.
  - apply NoDup_elements.
  - intros x. rewrite elem_of_elements, !elem_of_union, !elem_of_singleton,
      !elem_of_cons, elem_of_nil. tauto.
Defined.

(** ** Commands of several tokens, resolution in mass mode *)

(** X21: with two or more tokens the remote command is built from the
    tokens as they were given; what the process substitution returns is
    not used, so the command is the same for every FIFO path. *)
Theorem tokens_ignore_substitution (fifo fifo' : fifo_oracle) (g : globals)
    (c1 c2 : string) (rest : list string) :
  COMMAND g = c1 :: c2 :: rest →
  wrap_remote_command fifo g = wrap_remote_command fifo' g ∧
  wrap_remote_command fifo g =
    sudo_prefix g +:+ "sh -c " +:+ Py.join " " (quote <$> COMMAND g).
Proof.
  intros H. by rewrite !(wrap_remote_command_tokens _ g c1 c2 rest H).
Qed.

Lemma tokens_ignore_substitution_witness :
  wrap_remote_command (λ _ _, "/tmp/a")
    (assign_globals (args_of false "db1" ["cat"; "<(ls)"; "<((ls))"]))
  = "sh -c 'cat' '<(ls)' '<((ls))'".
Proof.
  destruct (tokens_ignore_substitution (λ _ _, "/tmp/a") (λ _ _, "/tmp/b")
              (assign_globals (args_of false "db1" ["cat"; "<(ls)"; "<((ls))"]))
              "cat" "<(ls)" ["<((ls))"] eq_refl) as [_ ->].
  by vm_compute.
Defined.

(** X22: in mass mode the resolution never stops the run: it returns
    the hosts found, however many, or the host pattern itself when none
    was found. *)
Theorem mass_resolution_returns (config : option (list string)) (g : globals) :
  MASS_MODE g = true →
  extract_hosts config g =
    (config_events config,
     Return (with_hosts g (split_pattern (PATTERN g)).1
               (match candidates config (PATTERN g) with
                | [] => [(split_pattern (PATTERN g)).2]
                | _ => candidates config (PATTERN g)
                end))).
Proof. intros H. apply extract_hosts_returns. by left. Qed.

Lemma mass_resolution_returns_witness :
  extract_hosts (Some example_config) (assign_globals (args_of true "example" ["uptime"]))
  = ([ReadConfig],
     Return (with_hosts (assign_globals (args_of true "example" ["uptime"])) ""
               ["db1.example.com"; "web1.example.com"; "web2.example.com"])).
Proof.
  rewrite (mass_resolution_returns (Some example_config)
             (assign_globals (args_of true "example" ["uptime"])) eq_refl).
  by vm_compute.
Defined.
